(** * mpdspl: accessor layer, label resolution and playlist synchronisation

    A shallow embedding of [mpdspl.py].  Python objects are modelled by the
    data the program really manipulates:

    - [pathlib.Path] values by their [parts] tuple;
    - exceptions by their class and their [args];
    - [dict] caches and [set]/[frozenset] values by finite maps and sets;
    - the dict of generated playlists, whose iteration order matters, by an
      association list with Python's insertion-order semantics;
    - the MPD client by a record of the server's visible state together with
      the log of the calls made on the connection. *)

From Stdlib Require Import ZArith Ascii String List Lia OrderedTypeEx.
From stdpp Require Import base option list sorting gmap sets strings.

Local Open Scope string_scope.
Local Open Scope list_scope.
Local Open Scope Z_scope.

(** ** Python exceptions *)

Inductive ExcClass :=
  | LookupError | KeyError | IndexError | AttributeError
  | AssertionError | CommandError.

#[global] Instance ExcClass_eq_dec : EqDecision ExcClass.
Proof. solve_decision. Defined.

(** [issubclass(c, LookupError)]: [KeyError] and [IndexError] derive from
    [LookupError]; the others do not. *)
Definition is_LookupError (c : ExcClass) : bool :=
  match c with
  | LookupError | KeyError | IndexError => true
  | AttributeError | AssertionError | CommandError => false
  end.

(** ** Paths

    A [pathlib.PurePosixPath] is represented by its [parts]: the components
    in order, preceded by the root (["/"] or ["//"]) when the path is
    absolute.  [Path('.')] has no parts. *)

Definition Path := list string.

Inductive ExcArg :=
  | ArgMsg (s : string)
  | ArgPath (p : Path).

Record PyExc := mkExc { exc_class : ExcClass; exc_args : list ExcArg }.

Inductive Result (A : Type) :=
  | Ok (a : A)
  | Raise (e : PyExc).
Arguments Ok {A} a.
Arguments Raise {A} e.

(** Sequencing of fallible steps: an exception skips the rest; written
    [x ← r; k] below. *)
#[global] Instance Result_bind : MBind Result := λ A B k r,
  match r with
  | Ok a => k a
  | Raise e => Raise e
  end.

#[global] Instance Result_ret : MRet Result := λ A a, Ok a.

(** A [for] loop whose body may raise, threading the loop-carried value. *)
Fixpoint for_each {A S} (body : S → A → Result S) (s : S) (l : list A)
  : Result S :=
  match l with
  | [] => Ok s
  | x :: l' => s' ← body s x; for_each body s' l'
  end.

(** [str.split(sep)] for a one-character separator. *)
Fixpoint split_on (sep : ascii) (s : string) : list string :=
  match s with
  | EmptyString => [EmptyString]
  | String c s' =>
      if Ascii.eqb c sep then EmptyString :: split_on sep s'
      else match split_on sep s' with
           | [] => [String c EmptyString]
           | w :: ws => String c w :: ws
           end
  end.

Definition slash : ascii := "/"%char.

Fixpoint leading_slashes (s : string) : nat :=
  match s with
  | String c s' => if Ascii.eqb c slash then S (leading_slashes s') else O
  | EmptyString => O
  end.

(** The root of a POSIX path: none for a relative path, ["//"] for exactly
    two leading slashes, ["/"] otherwise. *)
Definition root_of (s : string) : list string :=
  match leading_slashes s with
  | O => []
  | 2%nat => ["//"]
  | _ => ["/"]
  end.

Definition is_component (c : string) : bool :=
  negb (String.eqb c EmptyString) && negb (String.eqb c ".").

(** [pathlib.Path(s)]: empty and ["."] components are dropped. *)
Definition Path_of_string (s : string) : Path :=
  root_of s ++ List.filter is_component (split_on slash s).

Definition is_root (c : string) : bool :=
  String.eqb c "/" || String.eqb c "//".

Definition is_absolute (p : Path) : bool :=
  match p with
  | r :: _ => is_root r
  | [] => false
  end.

Fixpoint join_with (sep : string) (l : list string) : string :=
  match l with
  | [] => EmptyString
  | [c] => c
  | c :: l' => c +:+ sep +:+ join_with sep l'
  end.

(** [str(p)] *)
Definition Path_str (p : Path) : string :=
  match p with
  | [] => "."
  | r :: rest => if is_root r then r +:+ join_with "/" rest
                 else join_with "/" p
  end.

(** [d / s]: an absolute right operand replaces the left one. *)
Definition joinpath (d : Path) (s : string) : Path :=
  let q := Path_of_string s in
  if is_absolute q then q else d ++ q.

(** [p.parents]: the logical ancestors, nearest first, down to [Path('.')]
    for a relative path and down to the root for an absolute one. *)
Definition parents (p : Path) : list Path :=
  let lo := if is_absolute p then 1%nat else 0%nat in
  List.map (λ k, take k p) (rev (seq lo (length p - lo))).

(** Comparison of Python sequences, element by element; a proper prefix
    is smaller. *)
Fixpoint parts_compare (p q : list string) : comparison :=
  match p, q with
  | [], [] => Eq
  | [], _ :: _ => Lt
  | _ :: _, [] => Gt
  | a :: p', b :: q' =>
      match String.compare a b with
      | Eq => parts_compare p' q'
      | c => c
      end
  end.

(** [p <= q] on paths compares the parts. *)
Definition Path_le (p q : Path) : Prop := parts_compare p q ≠ Gt.

(** [s <= t] on strings compares code points. *)
Definition str_le (s t : string) : Prop := String.compare s t ≠ Gt.

#[global] Instance Path_le_dec : RelDecision Path_le.
Proof. intros p q. unfold Path_le. apply _. Defined.

#[global] Instance str_le_dec : RelDecision str_le.
Proof. intros p q. unfold str_le. apply _. Defined.

(** [sorted(...)] of paths, of strings and of integers.  The orders are
    total and antisymmetric on the keys, so the sorted list is determined by
    its input whatever sorting algorithm is used. *)
Definition sorted_paths (l : list Path) : list Path := merge_sort Path_le l.
Definition sorted_strs (l : list string) : list string := merge_sort str_le l.
Definition sorted_ints (l : list Z) : list Z := merge_sort Z.le l.

(** ** Python containers *)

(** A [dict] where iteration order matters: the items in insertion order.
    Assigning to a key that is present keeps its position. *)
Section PyDict.
Context {K V : Type} `{EqDecision K}.

Fixpoint dict_get (d : list (K * V)) (k : K) : option V :=
  match d with
  | [] => None
  | (k', v) :: d' => if decide (k' = k) then Some v else dict_get d' k
  end.

Fixpoint dict_set (d : list (K * V)) (k : K) (v : V) : list (K * V) :=
  match d with
  | [] => [(k, v)]
  | (k', v') :: d' =>
      if decide (k' = k) then (k', v) :: d' else (k', v') :: dict_set d' k v
  end.

(** [d.popitem()]: the last item and the remaining dict. *)
Definition dict_popitem (d : list (K * V)) : Result ((K * V) * list (K * V)) :=
  match rev d with
  | [] => Raise (mkExc KeyError [ArgMsg "popitem(): dictionary is empty"])
  | kv :: r => Ok (kv, rev r)
  end.
End PyDict.

(** Whether an integer fits the index type of the interpreter, a signed
    64-bit integer. *)
Definition fits_index (i : Z) : bool := (- 2 ^ 63 <=? i) && (i <? 2 ^ 63).

(** [l[i]] on a list, with Python's negative indices.  An index outside
    the list raises [IndexError]; its message depends on whether the index
    fits the interpreter's index type.  (The interpreter tests the fit
    first; a list never has as many as [2 ^ 63] items, so an index that
    does not fit is always outside the list.) *)
Definition py_index {A} (l : list A) (i : Z) : Result A :=
  let n := Z.of_nat (length l) in
  let j := if i <? 0 then i + n else i in
  match (if (0 <=? j) && (j <? n) then l !! Z.to_nat j else None) with
  | Some x => Ok x
  | None =>
      Raise (mkExc IndexError
               [ArgMsg (if fits_index i then "list index out of range"
                        else "cannot fit 'int' into an index-sized integer")])
  end.

(** [d[p]] on a plain dict keyed by paths. *)
Definition dict_getitem {V} (d : gmap Path V) (p : Path) : Result V :=
  match d !! p with
  | Some v => Ok v
  | None => Raise (mkExc KeyError [ArgPath p])
  end.
Arguments dict_getitem : simpl never.

(** The value bound to a playlist name: a [set]/[frozenset] of track
    indices, or an ordered sequence (tuple or list) of them. *)
Inductive PlValue :=
  | VSet (s : gset Z)
  | VSeq (l : list Z).

(** ** The MPD connection

    One client object is shared by the three accessors and by
    [generate_all]; its state is threaded through every call. *)

(** An object of the [listall] reply. *)
Inductive ListallObj :=
  | obj_file (uri : string)
  | obj_directory (uri : string)
  | obj_playlist (uri : string).

(** Commands that the program queues in a command list. *)
Inductive MpdCommand :=
  | cmd_save (name : string)
  | cmd_playlistclear (name : string)
  | cmd_playlistadd (name uri : string).

(** Calls made on the connection; a command list is sent when it ends. *)
Inductive MpdCall :=
  | call_listall
  | call_find (expr : string)
  | call_config
  | call_listplaylist (name : string)
  | call_command_list (cmds : list MpdCommand).

(** What the program can observe of the server: the database, the reply of
    [find] for a filter expression ([None]: the server rejects it), the
    reply of [config] ([None]: not permitted on this connection), the stored
    playlists and the play queue; [log] records the calls made so far. *)
Record Mpd := mkMpd {
  database : list ListallObj;
  find_reply : string → option (list string);
  music_directory : option string;
  stored : gmap string (list string);
  queue : list string;
  log : list MpdCall
}.

Definition logged (c : MpdCall) (m : Mpd) : Mpd :=
  mkMpd (database m) (find_reply m) (music_directory m) (stored m) (queue m)
        (log m ++ [c]).

Definition with_stored (st : gmap string (list string)) (m : Mpd) : Mpd :=
  mkMpd (database m) (find_reply m) (music_directory m) st (queue m) (log m).

Definition command_error : PyExc := mkExc CommandError [].

Definition Mpd_listall (m : Mpd) : list ListallObj * Mpd :=
  (database m, logged call_listall m).

Definition Mpd_find (expr : string) (m : Mpd) : Result (list string) * Mpd :=
  (match find_reply m expr with
   | Some files => Ok files
   | None => Raise command_error
   end, logged (call_find expr) m).

Definition Mpd_config (m : Mpd) : Result string * Mpd :=
  (match music_directory m with
   | Some d => Ok d
   | None => Raise command_error
   end, logged call_config m).

Definition Mpd_listplaylist (name : string) (m : Mpd)
  : Result (list string) * Mpd :=
  (match stored m !! name with
   | Some l => Ok l
   | None => Raise command_error
   end, logged (call_listplaylist name) m).

(** The server's stored-playlist commands: [save] stores the queue under a
    new name and refuses an existing one; [playlistclear] empties the
    playlist; [playlistadd] appends, creating the playlist when needed. *)
Definition exec_command (st : gmap string (list string)) (q : list string)
    (c : MpdCommand) : Result (gmap string (list string)) :=
  match c with
  | cmd_save name =>
      match st !! name with
      | Some _ => Raise command_error
      | None => Ok (<[name := q]> st)
      end
  | cmd_playlistclear name => Ok (<[name := []]> st)
  | cmd_playlistadd name uri =>
      Ok (<[name := default [] (st !! name) ++ [uri]]> st)
  end.

(** Commands take effect in order up to the first one that fails. *)
Fixpoint exec_commands (st : gmap string (list string)) (q : list string)
    (cmds : list MpdCommand) : Result unit * gmap string (list string) :=
  match cmds with
  | [] => (Ok tt, st)
  | c :: cmds' =>
      match exec_command st q c with
      | Ok st' => exec_commands st' q cmds'
      | Raise e => (Raise e, st)
      end
  end.

(** [command_list_ok_begin(); ...; command_list_end()] *)
Definition Mpd_command_list (cmds : list MpdCommand) (m : Mpd)
  : Result unit * Mpd :=
  let '(r, st) := exec_commands (stored m) (queue m) cmds in
  (r, with_stored st (logged (call_command_list cmds) m)).

(** The commands sent in command lists, in order: the mutating calls. *)
Definition mutations (calls : list MpdCall) : list MpdCommand :=
  concat (List.map (λ c, match c with
                         | call_command_list cmds => cmds
                         | _ => []
                         end) calls).

(** ** [DbAccessor] *)

Section DbAccessor.
Context {V : Type}.
(** [self._lookup], supplied by the subclass. *)
Variable lookup : string → Mpd → Result V * Mpd.

(** [DbAccessor.__getitem__]: a cached value is returned as it is; else
    the name is resolved and the result cached.  Any [LookupError] of
    the resolution is re-raised as an [IndexError] with the same
    arguments; other exceptions propagate. *)
Definition DbAccessor_getitem (arg : string) (cache : gmap string V)
    (m : Mpd) : Result V * gmap string V * Mpd :=
  match cache !! arg with
  | Some v => (Ok v, cache, m)
  | None =>
      match lookup arg m with
      | (Ok ret, m') => (Ok ret, <[arg := ret]> cache, m')
      | (Raise e, m') =>
          (Raise (if is_LookupError (exc_class e)
                  then mkExc IndexError (exc_args e) else e), cache, m')
      end
  end.
End DbAccessor.

(** ** [PlaylistAccessor] *)

Record PlaylistAccessor := mkPlaylistAccessor {
  playlist_cache : gmap string PlValue;
  frozen_keys : gset string;
  generated_playlists : list (string * PlValue)
}.

Definition dquote : string := String "034"%char EmptyString.

Definition PlaylistAccessor_lookup (map_path_to_idx : list (Path * Z))
    (arg : string) (m : Mpd) : Result PlValue * Mpd :=
  let '(r, m') := Mpd_listplaylist arg m in
  (match r with
   | Raise e =>
       if decide (exc_class e = CommandError)
       then Raise (mkExc LookupError
                     [ArgMsg ("No such playlist " +:+ dquote +:+ arg +:+ dquote)])
       else Raise e
   | Ok raw_result =>
       Ok (VSeq (omap (λ x, dict_get map_path_to_idx (Path_of_string x))
                      raw_result))
   end, m').

(** [PlaylistAccessor.__getitem__]: the [finally] clause freezes the name
    whatever the outcome of the lookup. *)
Definition PlaylistAccessor_getitem (map_path_to_idx : list (Path * Z))
    (arg : string) (self : PlaylistAccessor) (m : Mpd)
  : Result PlValue * PlaylistAccessor * Mpd :=
  let '(r, cache', m') :=
    DbAccessor_getitem (PlaylistAccessor_lookup map_path_to_idx) arg
                       (playlist_cache self) m in
  (r, mkPlaylistAccessor cache' ({[arg]} ∪ frozen_keys self)
                         (generated_playlists self), m').

Definition conflict (key : string) : PyExc :=
  mkExc KeyError
    [ArgMsg ("Cannot modify playlist " +:+ key +:+
             " after its contents have already been queried for something else")].

(** [PlaylistAccessor.__setitem__] *)
Definition PlaylistAccessor_setitem (key : string) (value : PlValue)
    (self : PlaylistAccessor) : Result unit * PlaylistAccessor :=
  if decide (key ∈ frozen_keys self) then (Raise (conflict key), self)
  else (Ok tt,
        mkPlaylistAccessor (<[key := value]> (playlist_cache self))
                           (frozen_keys self)
                           (dict_set (generated_playlists self) key value)).

(** ** [GenreAccessor] *)

(** [f"(Genre == '{arg}')"] *)
Definition genre_filter (arg : string) : string :=
  "(Genre == '" +:+ arg +:+ "')".

Definition GenreAccessor_lookup (map_path_to_idx : list (Path * Z))
    (arg : string) (m : Mpd) : Result (gset Z) * Mpd :=
  let '(r, m') := Mpd_find (genre_filter arg) m in
  (raw_result ← r;
   Ok (list_to_set
         (omap (λ x, dict_get map_path_to_idx (Path_of_string x)) raw_result)),
   m').

(** ** [LabelAccessor] *)

(** A label rule file found below the music directory: its directory
    relative to the music directory and its parsed content, a mapping from
    keys to either [None] or a list of subpaths. *)
Record RuleFile := mkRuleFile {
  tag_file_dir : Path;
  tag_file_content : list (string * option (list string))
}.

(** [pathlib.Path(root).rglob(pattern)] with each match already loaded:
    the rule files in the order the traversal yields them. *)
Definition FileSystem := string → string → list RuleFile.

(** [result[p].append(i)] on a [defaultdict(list)] *)
Definition register (i : Z) (result : gmap Path (list Z)) (p : Path)
  : gmap Path (list Z) :=
  <[p := default [] (result !! p) ++ [i]]> result.

(** The body of the loop over [map_path_to_idx.items()]: the index is
    registered under the track's own path and under each of its parents. *)
Definition register_track (result : gmap Path (list Z)) (item : Path * Z)
  : gmap Path (list Z) :=
  let '(p, i) := item in
  foldl (register i) (register i result p) (parents p).

(** [LabelAccessor.__all_tracks_by_path].  (A cached property: it is a
    function of [map_path_to_idx] alone, which never changes within a
    cycle.) *)
Definition all_tracks_by_path (map_path_to_idx : list (Path * Z))
  : gmap Path (gset Z) :=
  list_to_set <$> foldl register_track ∅ map_path_to_idx.

(** [result[q]] on the [defaultdict], without inserting. *)
Definition entries (result : gmap Path (list Z)) (q : Path) : list Z :=
  default [] (result !! q).

(** The body of the loop over the rule files found for a label. *)
Definition apply_tag_file (atbp : gmap Path (gset Z)) (result : gset Z)
    (tag_file : RuleFile) : Result (gset Z) :=
  let d := tag_file_dir tag_file in
  '(key, given_list, rest) ← dict_popitem (tag_file_content tag_file);
  match rest with
  | _ :: _ => Raise (mkExc AssertionError [])
  | [] =>
      if String.eqb key "all_except" then
        a ← dict_getitem atbp d;
        match given_list with
        | None => Ok (result ∪ a)
        | Some l =>
            for_each (λ result p, b ← dict_getitem atbp (joinpath d p);
                                  Ok (result ∖ b))
                     (result ∪ a) l
        end
      else if String.eqb key "none_except" then
        a ← dict_getitem atbp d;
        match given_list with
        | None => Ok (result ∖ a)
        | Some l =>
            for_each (λ result p, b ← dict_getitem atbp (joinpath d p);
                                  Ok (result ∪ b))
                     (result ∖ a) l
        end
      else Ok result
  end.

(** The loop over the rule files, from an empty [result] and
    [label_found = False]. *)
Definition apply_tag_files (atbp : gmap Path (gset Z))
    (tag_files : list RuleFile) : Result (gset Z * bool) :=
  for_each (λ '(result, _) tag_file,
              result' ← apply_tag_file atbp result tag_file;
              Ok (result', true))
           (∅, false) tag_files.

(** [f'.label.{arg}.yml'] *)
Definition yml_file_name (arg : string) : string :=
  ".label." +:+ arg +:+ ".yml".

Definition LabelAccessor_lookup (fs : FileSystem)
    (map_path_to_idx : list (Path * Z)) (arg : string) (m : Mpd)
  : Result (gset Z) * Mpd :=
  let all_tracks_by_path := all_tracks_by_path map_path_to_idx in
  let '(r, m') := Mpd_config m in
  (music_root ← r;
   '(result, label_found) ←
     apply_tag_files all_tracks_by_path (fs music_root (yml_file_name arg));
   if label_found : bool then Ok result
   else Raise (mkExc LookupError
                 [ArgMsg ("No file found named " +:+ yml_file_name arg)]),
   m').

(** ** [generate_all] *)

(** [sorted(pathlib.Path(obj['file']) for obj in m.listall() if 'file' in obj)] *)
Definition file_paths (objs : list ListallObj) : list Path :=
  omap (λ obj, match obj with
               | obj_file f => Some (Path_of_string f)
               | _ => None
               end) objs.

Definition all_track_paths_of (objs : list ListallObj) : list Path :=
  sorted_paths (file_paths objs).

Definition enumerate {A} (l : list A) : list (Z * A) :=
  imap (λ i x, (Z.of_nat i, x)) l.

(** [{p: i for i, p in enumerate(all_track_paths)}] *)
Definition map_path_to_idx_of (all_track_paths : list Path) : list (Path * Z) :=
  foldl (λ d '(i, p), dict_set d p i) [] (enumerate all_track_paths).

(** [frozenset(range(len(all_track_paths)))] *)
Definition all_tracks_of (all_track_paths : list Path) : gset Z :=
  list_to_set (Z.of_nat <$> seq 0 (length all_track_paths)).

(** [[str(all_track_paths[i]) for i in track_idxs]] *)
Definition translate (all_track_paths : list Path) (track_idxs : list Z)
  : Result (list string) :=
  mapM (λ i, p ← py_index all_track_paths i; Ok (Path_str p)) track_idxs.

(** The normalisation at the head of the synchronisation loop: a set is
    sorted, any other value is taken in its own order, and the indices are
    then translated. *)
Definition track_names_of (all_track_paths : list Path) (track_idxs : PlValue)
  : Result (list string) :=
  let track_idxs := match track_idxs with
                    | VSet s => sorted_ints (elements s)
                    | VSeq l => l
                    end in
  translate all_track_paths track_idxs.

(** One iteration of the synchronisation loop.  (The [print] calls are
    left out: they touch neither the connection nor the control flow.) *)
Definition sync_playlist (all_track_paths : list Path) (m : Mpd)
    (item : string * PlValue) : Result unit * Mpd :=
  let '(name, track_idxs) := item in
  match track_names_of all_track_paths track_idxs with
  | Raise e => (Raise e, m)
  | Ok track_names =>
      let '(r, m1) := Mpd_listplaylist name m in
      match (match r with
             | Ok l => Ok (l, true)
             | Raise e => if decide (exc_class e = CommandError)
                          then Ok ([], false) else Raise e
             end) with
      | Raise e => (Raise e, m1)
      | Ok (old_track_names, already_exists) =>
          if negb already_exists && bool_decide (track_names = []) then
            Mpd_command_list [cmd_save name; cmd_playlistclear name] m1
          else if bool_decide (track_names ≠ old_track_names) then
            Mpd_command_list
              ((if already_exists : bool then [cmd_playlistclear name] else [])
               ++ List.map (cmd_playlistadd name) track_names) m1
          else (Ok tt, m1)
      end
  end.

Arguments sync_playlist : simpl never.

(** [for name, track_idxs in generated_playlists.items(): ...]; an
    exception leaves the loop. *)
Fixpoint sync_playlists (all_track_paths : list Path) (m : Mpd)
    (generated_playlists : list (string * PlValue)) : Result unit * Mpd :=
  match generated_playlists with
  | [] => (Ok tt, m)
  | item :: rest =>
      match sync_playlist all_track_paths m item with
      | (Ok _, m') => sync_playlists all_track_paths m' rest
      | (Raise e, m') => (Raise e, m')
      end
  end.

(** ** The rule script *)

(** What the rule script is run with: the caches of the [genre] and
    [label] accessors, the [playlist] accessor, and the connection they
    share. *)
Record Cycle := mkCycle {
  genre : gmap string (gset Z);
  label : gmap string (gset Z);
  playlist : PlaylistAccessor;
  mpd : Mpd
}.

Definition fresh_cycle (m : Mpd) : Cycle :=
  mkCycle ∅ ∅ (mkPlaylistAccessor ∅ ∅ []) m.

(** The operations the bindings offer to a script: [genre[name]],
    [label[name]], [playlist[name]] and [playlist[name] = value]. *)
Inductive ScriptOp :=
  | genre_get (name : string)
  | label_get (name : string)
  | playlist_get (name : string)
  | playlist_set (name : string) (value : PlValue).

Inductive Outcome :=
  | returned (v : PlValue)
  | assigned
  | raised (e : PyExc).

Definition outcome_of {A} (f : A → Outcome) (r : Result A) : Outcome :=
  match r with
  | Ok a => f a
  | Raise e => raised e
  end.

Definition cycle_step (fs : FileSystem) (map_path_to_idx : list (Path * Z))
    (c : Cycle) (op : ScriptOp) : Outcome * Cycle :=
  match op with
  | genre_get name =>
      let '(r, cache', m') :=
        DbAccessor_getitem (GenreAccessor_lookup map_path_to_idx) name
                           (genre c) (mpd c) in
      (outcome_of (λ s, returned (VSet s)) r,
       mkCycle cache' (label c) (playlist c) m')
  | label_get name =>
      let '(r, cache', m') :=
        DbAccessor_getitem (LabelAccessor_lookup fs map_path_to_idx) name
                           (label c) (mpd c) in
      (outcome_of (λ s, returned (VSet s)) r,
       mkCycle (genre c) cache' (playlist c) m')
  | playlist_get name =>
      let '(r, self', m') :=
        PlaylistAccessor_getitem map_path_to_idx name (playlist c) (mpd c) in
      (outcome_of returned r, mkCycle (genre c) (label c) self' m')
  | playlist_set name value =>
      let '(r, self') := PlaylistAccessor_setitem name value (playlist c) in
      (outcome_of (λ _, assigned) r, mkCycle (genre c) (label c) self' (mpd c))
  end.

(** The state after a sequence of operations, whatever their outcomes (a
    script may catch the exceptions). *)
Definition cycle_run (fs : FileSystem) (map_path_to_idx : list (Path * Z))
    (c : Cycle) (ops : list ScriptOp) : Cycle :=
  foldl (λ c op, (cycle_step fs map_path_to_idx c op).2) c ops.

(** Whether [playlist[name]] is read among the operations. *)
Definition reads (name : string) (ops : list ScriptOp) : bool :=
  existsb (λ op, match op with
                 | playlist_get n => bool_decide (n = name)
                 | _ => false
                 end) ops.

(** A rule script, as far as the accessors are concerned: it ends, raises,
    or performs an operation and goes on according to the outcome. *)
Inductive Script :=
  | script_end
  | script_raise (e : PyExc)
  | script_do (op : ScriptOp) (k : Outcome → Script).

Fixpoint execfile (fs : FileSystem) (map_path_to_idx : list (Path * Z))
    (s : Script) (c : Cycle) : Result unit * Cycle :=
  match s with
  | script_end => (Ok tt, c)
  | script_raise e => (Raise e, c)
  | script_do op k =>
      let '(o, c') := cycle_step fs map_path_to_idx c op in
      execfile fs map_path_to_idx (k o) c'
  end.

(** ** [generate_all] with its synchronisation loop; the script receives
    [all_tracks]. *)
Definition generate_all (fs : FileSystem) (exec_file : gset Z → Script)
    (m : Mpd) : Result unit * Mpd :=
  let '(objs, m0) := Mpd_listall m in
  let all_track_paths := all_track_paths_of objs in
  let map_path_to_idx := map_path_to_idx_of all_track_paths in
  match execfile fs map_path_to_idx (exec_file (all_tracks_of all_track_paths))
                 (fresh_cycle m0) with
  | (Raise e, c) => (Raise e, mpd c)
  | (Ok _, c) =>
      sync_playlists all_track_paths (mpd c) (generated_playlists (playlist c))
  end.

(** ** The rule files of a library, and the search for them *)










(** ** Vocabulary of the statements *)

(** [q] is the path of a known track or one of its parents: the directory
    or file [q] holds at least one track. *)
Definition has_track (map_path_to_idx : list (Path * Z)) (q : Path) : Prop :=
  Exists (λ pi, q ∈ pi.1 :: parents pi.1) map_path_to_idx.

#[global] Instance has_track_dec map_path_to_idx q :
  Decision (has_track map_path_to_idx q).
Proof. unfold has_track. apply _. Defined.

(** The paths a rule file makes the resolver look up: for a file with the
    single key [all_except] or [none_except], its own directory and then
    each listed subpath joined to it. *)
Definition referenced_paths (tag_file : RuleFile) : list Path :=
  match tag_file_content tag_file with
  | [(key, given_list)] =>
      if String.eqb key "all_except" || String.eqb key "none_except"
      then tag_file_dir tag_file ::
           List.map (joinpath (tag_file_dir tag_file)) (default [] given_list)
      else []
  | _ => []
  end.

(** The [IndexError] that [label[arg]] raises when no rule file is found. *)
Definition label_not_found (arg : string) : PyExc :=
  mkExc IndexError [ArgMsg ("No file found named " +:+ yml_file_name arg)].

(** What holds of a cycle started on the connection state [m0], whatever
    the script has done so far: the script has no operation that changes
    what the server answers, and the caches of [genre] and [label] hold
    results of their lookups. *)
Definition cycle_inv (fs : FileSystem) (map_path_to_idx : list (Path * Z))
    (m0 : Mpd) (c : Cycle) : Prop :=
  find_reply (mpd c) = find_reply m0 ∧
  music_directory (mpd c) = music_directory m0 ∧
  stored (mpd c) = stored m0 ∧
  (∀ n v, genre c !! n = Some v →
          (GenreAccessor_lookup map_path_to_idx n m0).1 = Ok v) ∧
  (∀ n v, label c !! n = Some v →
          (LabelAccessor_lookup fs map_path_to_idx n m0).1 = Ok v).

(** ** Sample libraries *)

(** Four tracks in three directories, served from [/music]. *)
Definition sample_listing : list ListallObj :=
  [obj_directory "a"; obj_file "a/1.mp3"; obj_file "a/2.mp3";
   obj_directory "b"; obj_file "b/3.mp3";
   obj_directory "c"; obj_file "c/4.mp3"].

Definition sample_paths : list Path := all_track_paths_of sample_listing.

Definition sample_map_path_to_idx : list (Path * Z) :=
  map_path_to_idx_of sample_paths.

Definition sample_mpd : Mpd :=
  mkMpd sample_listing (λ _, Some []) (Some "/music")
        {[ "old" := ["b/3.mp3"] ]} [] [].

(** A library whose only rule file is [.label.foo.yml] at the root, with
    the given content. *)
Definition one_rule_fs (content : list (string * option (list string)))
  : FileSystem :=
  λ root pattern,
    if String.eqb root "/music" && String.eqb pattern ".label.foo.yml"
    then [mkRuleFile [] content] else [].

(** Two artist directories of which one name extends the other. *)
Definition air_listing : list ListallObj :=
  [obj_directory "Air"; obj_file "Air/02.mp3";
   obj_directory "Air Supply"; obj_file "Air Supply/01.mp3"].

(** ** Further operations and vocabulary *)

(** The conversion in [DbAccessor.__getattr__]: a [LookupError] of
    [self.__getitem__(arg)] is re-raised as an [AttributeError] with the
    same arguments. *)
Definition as_attribute {V} (r : Result V) : Result V :=
  match r with
  | Ok v => Ok v
  | Raise e => Raise (if is_LookupError (exc_class e)
                      then mkExc AttributeError (exc_args e) else e)
  end.

(** [DbAccessor.__getattr__] on an accessor that inherits [__getitem__]
    ([genre], [label]). *)
Definition DbAccessor_getattr {V} (lookup : string → Mpd → Result V * Mpd)
    (arg : string) (cache : gmap string V) (m : Mpd)
  : Result V * gmap string V * Mpd :=
  let '(r, cache', m') := DbAccessor_getitem lookup arg cache m in
  (as_attribute r, cache', m').

(** The same method on [playlist]: [self.__getitem__] is the one that
    [PlaylistAccessor] overrides. *)
Definition PlaylistAccessor_getattr (map_path_to_idx : list (Path * Z))
    (arg : string) (self : PlaylistAccessor) (m : Mpd)
  : Result PlValue * PlaylistAccessor * Mpd :=
  let '(r, self', m') := PlaylistAccessor_getitem map_path_to_idx arg self m in
  (as_attribute r, self', m').

(** A string without a slash. *)
Fixpoint no_slash (s : string) : bool :=
  match s with
  | EmptyString => true
  | String c s' => negb (Ascii.eqb c slash) && no_slash s'
  end.

(** The operations a script performs when run from a given state. *)
Fixpoint execfile_trace (fs : FileSystem) (map_path_to_idx : list (Path * Z))
    (s : Script) (c : Cycle) : list ScriptOp :=
  match s with
  | script_end | script_raise _ => []
  | script_do op k =>
      let '(o, c') := cycle_step fs map_path_to_idx c op in
      op :: execfile_trace fs map_path_to_idx (k o) c'
  end.

(** Whether [playlist[name] = ...] occurs among the operations. *)
Definition writes (name : string) (ops : list ScriptOp) : bool :=
  existsb (λ op, match op with
                 | playlist_set n _ => bool_decide (n = name)
                 | _ => false
                 end) ops.

(** The index an in-range Python index stands for. *)
Definition normal_index (n : nat) (i : Z) : Z :=
  if i <? 0 then i + Z.of_nat n else i.

(** The indices a value holds. *)
Definition indices_of (v : PlValue) : list Z :=
  match v with
  | VSet s => elements s
  | VSeq l => l
  end.

(** The indices a value holds, in the order the synchronisation loop
    takes them. *)
Definition ordered_indices (v : PlValue) : list Z :=
  match v with
  | VSet s => sorted_ints (elements s)
  | VSeq l => l
  end.

(** An index that [l[i]] accepts for a list of length [n]. *)
Definition in_range (n : nat) (i : Z) : Prop := - Z.of_nat n ≤ i < Z.of_nat n.

#[global] Instance in_range_dec n i : Decision (in_range n i).
Proof. unfold in_range. apply _. Defined.

Definition index_error : PyExc :=
  mkExc IndexError [ArgMsg "list index out of range"].

Definition overflow_error : PyExc :=
  mkExc IndexError [ArgMsg "cannot fit 'int' into an index-sized integer"].

(** The exception that [l[i]] raises for an index outside the list. *)
Definition index_exception (i : Z) : PyExc :=
  if fits_index i then index_error else overflow_error.

(** A server with songs tagged Rock, one of them no longer in the
    database, and a stored playlist with such an entry. *)
Definition rock_mpd : Mpd :=
  mkMpd sample_listing
        (λ expr, if String.eqb expr (genre_filter "Rock")
                 then Some ["a/2.mp3"; "gone.mp3"; "a/1.mp3"] else Some [])
        (Some "/music")
        {[ "old" := ["b/3.mp3"; "gone.mp3"; "a/1.mp3"] ]} [] [].

(** The playlist a command acts on. *)
Definition command_name (c : MpdCommand) : string :=
  match c with
  | cmd_save name | cmd_playlistclear name | cmd_playlistadd name _ => name
  end.

(** A key that [LabelAccessor._lookup] acts on. *)
Definition recognised (key : string) : bool :=
  String.eqb key "all_except" || String.eqb key "none_except".

(** A script that reads a label and lets the exception escape, and one
    that generates a single playlist of all tracks. *)
Definition failing_script (all_tracks : gset Z) : Script :=
  script_do (label_get "bar")
            (λ o, match o with
                  | raised e => script_raise e
                  | _ => script_do (playlist_set "new" (VSet all_tracks))
                                   (λ _, script_end)
                  end).

Definition everything_script (all_tracks : gset Z) : Script :=
  script_do (playlist_set "everything" (VSet all_tracks)) (λ _, script_end).

(** A rule file whose only key is not one the resolver acts on. *)
Definition unrecognised_only (tag_file : RuleFile) : bool :=
  match tag_file_content tag_file with
  | [(key, _)] => negb (recognised key)
  | _ => false
  end.

(** A catalogue of relative paths, as the server lists them. *)
Definition relative (paths : list Path) : Prop :=
  Forall (λ p, is_absolute p = false) paths.

#[global] Instance relative_dec paths : Decision (relative paths).
Proof. unfold relative. apply _. Defined.

(** A library where the search for [.label.foo.yml] finds the given rule
    files, in this order. *)
Definition rules_fs (tag_files : list RuleFile) : FileSystem :=
  λ root pattern,
    if String.eqb root "/music" && String.eqb pattern ".label.foo.yml"
    then tag_files else [].

(** * Properties *)

(** ** Dicts in insertion order *)

Section PyDictFacts.
Context {K V : Type} `{EqDecision K}.
Implicit Types (d : list (K * V)) (k : K) (v : V).

Lemma dict_get_set_eq d k v : dict_get (dict_set d k v) k = Some v.
Proof.
  induction d as [| [k' v'] d IH]; simpl.
  - by rewrite decide_True.
  - destruct (decide (k' = k)) as [-> | Hne]; simpl.
    + by rewrite decide_True.
    + by rewrite decide_False.
Qed.

Lemma dict_get_set_ne d k k' v :
  k ≠ k' → dict_get (dict_set d k v) k' = dict_get d k'.
Proof.
  intros Hne. induction d as [| [k0 v0] d IH]; simpl.
  - by rewrite decide_False.
  - destruct (decide (k0 = k)) as [-> | Hne0]; simpl.
    + by rewrite !decide_False.
    + by rewrite IH.
Qed.

Lemma dict_set_keys d k v :
  (dict_set d k v).*1 = if decide (k ∈ d.*1) then d.*1 else d.*1 ++ [k].
Proof.
  induction d as [| [k' v'] d IH]; csimpl; [done |].
  - destruct (decide (k' = k)) as [-> | Hne]; csimpl.
    + rewrite decide_True; [done | left].
    + rewrite IH. destruct (decide (k ∈ d.*1)) as [Hin | Hnin].
      * rewrite decide_True; [done | by right].
      * rewrite decide_False; [done |].
        rewrite elem_of_cons. intros [-> | ?]; done.
Qed.

(** A dict never holds a key twice. *)
Lemma dict_set_NoDup d k v : NoDup d.*1 → NoDup (dict_set d k v).*1.
Proof.
  intros Hd. rewrite dict_set_keys. case_decide; [done |].
  apply NoDup_app. split_and!; [done | | apply NoDup_singleton].
  intros x Hx. rewrite list_elem_of_singleton. by intros ->.
Qed.

Lemma dict_get_Some d k v : dict_get d k = Some v → (k, v) ∈ d.
Proof.
  induction d as [| [k' v'] d IH]; simpl; [done |].
  case_decide as Hk.
  - intros [= ->]. subst. left.
  - intros. right. auto.
Qed.

Lemma dict_get_None d k : dict_get d k = None ↔ k ∉ d.*1.
Proof.
  induction d as [| [k' v'] d IH]; csimpl.
  - split; [intros _; apply not_elem_of_nil | done].
  - rewrite not_elem_of_cons. case_decide as Hk.
    + subst. split; [done | intros [? _]; done].
    + rewrite IH. split; [intros; split; [congruence | done] | tauto].
Qed.

Lemma dict_get_NoDup d k v :
  NoDup d.*1 → (k, v) ∈ d → dict_get d k = Some v.
Proof.
  induction d as [| [k' v'] d IH]; csimpl.
  - intros _ Hin. by apply elem_of_nil in Hin.
  - rewrite NoDup_cons, elem_of_cons. intros [Hk Hd] [Heq | Hin].
    + injection Heq as -> ->. by rewrite decide_True.
    + rewrite decide_False; [auto |].
      intros ->. apply Hk. apply list_elem_of_fmap. by exists (k, v).
Qed.
End PyDictFacts.

(** ** The order on paths *)

Lemma str_compare_refl (a : string) : String.compare a a = Eq.
Proof. by apply String_as_OT.cmp_eq. Qed.

Lemma str_compare_lt_trans (a b c : string) :
  String.compare a b = Lt → String.compare b c = Lt → String.compare a c = Lt.
Proof.
  intros Hab Hbc. apply String_as_OT.cmp_lt.
  eapply String_as_OT.lt_trans; apply String_as_OT.cmp_lt; eassumption.
Qed.

Lemma parts_compare_antisym (p q : list string) :
  parts_compare p q = CompOpp (parts_compare q p).
Proof.
  revert q. induction p as [| a p IH]; intros [| b q]; simpl; try done.
  rewrite (String.compare_antisym b a), IH.
  by destruct (String.compare a b).
Qed.

Lemma parts_compare_eq (p q : list string) : parts_compare p q = Eq → p = q.
Proof.
  revert q. induction p as [| a p IH]; intros [| b q]; simpl; try done.
  destruct (String.compare a b) eqn:Hab; try done.
  intros Hpq. apply String.compare_eq_iff in Hab. f_equal; auto.
Qed.

Lemma parts_compare_refl (p : list string) : parts_compare p p = Eq.
Proof. induction p as [| a p IH]; simpl; [done |]. by rewrite str_compare_refl. Qed.

Lemma parts_compare_lt_trans (p q r : list string) :
  parts_compare p q = Lt → parts_compare q r = Lt → parts_compare p r = Lt.
Proof.
  revert q r. induction p as [| a p IH]; intros [| b q] [| c r]; simpl;
    try done.
  destruct (String.compare a b) eqn:Hab; try done;
    destruct (String.compare b c) eqn:Hbc; try done.
  - apply String.compare_eq_iff in Hab, Hbc. subst.
    rewrite str_compare_refl. apply IH.
  - apply String.compare_eq_iff in Hab. subst. by rewrite Hbc.
  - apply String.compare_eq_iff in Hbc. subst. by rewrite Hab.
  - by rewrite (str_compare_lt_trans a b c).
Qed.

#[global] Instance Path_le_total : Total Path_le.
Proof.
  intros p q. unfold Path_le. rewrite (parts_compare_antisym q p).
  destruct (parts_compare p q); simpl; auto.
Qed.

#[global] Instance Path_le_trans : Transitive Path_le.
Proof.
  intros p q r. unfold Path_le.
  destruct (parts_compare p q) eqn:Hpq; try done; intros _.
  - by apply parts_compare_eq in Hpq as ->.
  - destruct (parts_compare q r) eqn:Hqr; try done; intros _.
    + apply parts_compare_eq in Hqr as <-. by rewrite Hpq.
    + by rewrite (parts_compare_lt_trans p q r).
Qed.

#[global] Instance Path_le_antisym : AntiSymm (=) Path_le.
Proof.
  intros p q. unfold Path_le. rewrite (parts_compare_antisym q p).
  destruct (parts_compare p q) eqn:Hpq; simpl; try done.
  intros _ _. by apply parts_compare_eq.
Qed.

(** ** The track catalogue *)

Lemma enumerate_snoc {A} (l : list A) (x : A) :
  enumerate (l ++ [x]) = enumerate l ++ [(Z.of_nat (length l), x)].
Proof.
  unfold enumerate. rewrite imap_app. simpl. by rewrite Nat.add_0_r.
Qed.

Lemma map_path_to_idx_of_snoc (l : list Path) (p : Path) :
  map_path_to_idx_of (l ++ [p]) =
  dict_set (map_path_to_idx_of l) p (Z.of_nat (length l)).
Proof.
  unfold map_path_to_idx_of. by rewrite enumerate_snoc, foldl_app.
Qed.

Lemma imap_fst_pair (l : list Path) :
  (imap (λ i p, (p, Z.of_nat i)) l).*1 = l.
Proof.
  rewrite fmap_imap. rewrite <- (list_fmap_id l) at 2.
  rewrite <- imap_const. by apply imap_ext.
Qed.

Lemma dict_set_fresh {K V} `{EqDecision K} (d : list (K * V)) k v :
  k ∉ d.*1 → dict_set d k v = d ++ [(k, v)].
Proof.
  induction d as [| [k' v'] d IH]; csimpl; [done |].
  rewrite not_elem_of_cons. intros [Hne Hnin].
  rewrite decide_False by done. by rewrite IH.
Qed.

(** With no path listed twice, the dict pairs each path with its
    position. *)
Lemma map_path_to_idx_of_NoDup (l : list Path) :
  NoDup l → map_path_to_idx_of l = imap (λ i p, (p, Z.of_nat i)) l.
Proof.
  induction l as [| p l IH] using rev_ind; [done |].
  rewrite NoDup_app. intros (Hl & Hp & _).
  rewrite map_path_to_idx_of_snoc, imap_app, IH by done. simpl.
  rewrite Nat.add_0_r. apply dict_set_fresh.
  rewrite imap_fst_pair.
  intros Hin. apply (Hp p Hin). left.
Qed.

Lemma map_path_to_idx_of_keys (l : list Path) :
  NoDup l → (map_path_to_idx_of l).*1 = l.
Proof.
  intros Hl. rewrite map_path_to_idx_of_NoDup by done. apply imap_fst_pair.
Qed.

Lemma map_path_to_idx_of_lookup (l : list Path) (p : Path) (i : nat) :
  NoDup l →
  dict_get (map_path_to_idx_of l) p = Some (Z.of_nat i) ↔ l !! i = Some p.
Proof.
  intros Hl. split.
  - intros Hget. apply dict_get_Some in Hget.
    rewrite map_path_to_idx_of_NoDup in Hget by done.
    apply elem_of_lookup_imap in Hget as (j & q & Heq & Hj).
    injection Heq as -> Hij. by apply Nat2Z.inj in Hij as ->.
  - intros Hi. apply dict_get_NoDup.
    + by rewrite map_path_to_idx_of_keys.
    + rewrite map_path_to_idx_of_NoDup by done.
      apply elem_of_lookup_imap. eauto.
Qed.

Lemma elem_of_all_tracks_of (l : list Path) (z : Z) :
  z ∈ all_tracks_of l ↔ 0 ≤ z < Z.of_nat (length l).
Proof.
  unfold all_tracks_of. rewrite elem_of_list_to_set, list_elem_of_fmap.
  setoid_rewrite elem_of_seq. split.
  - intros (n & -> & Hn). lia.
  - intros Hz. exists (Z.to_nat z). lia.
Qed.

Lemma StronglySorted_lookup_lt {A} (R : relation A) (l : list A) i j x y :
  StronglySorted R l → l !! i = Some x → l !! j = Some y → (i < j)%nat → R x y.
Proof.
  intros Hl. revert i j. induction Hl as [| a l Hl IH Ha]; intros i j; [done |].
  destruct i as [| i], j as [| j]; simpl; try lia.
  - intros [= ->] Hj _. rewrite Forall_forall in Ha. apply Ha.
    eapply list_elem_of_lookup_2, Hj.
  - intros Hi Hj Hij. apply (IH i j); [done | done | lia].
Qed.

(** Any sorted arrangement of the same paths is the one [sorted] returns. *)
Lemma sorted_paths_unique (l k : list Path) :
  k ≡ₚ l → StronglySorted Path_le k → k = sorted_paths l.
Proof.
  intros Hperm Hk. apply (StronglySorted_unique Path_le); [done | |].
  - apply (StronglySorted_merge_sort Path_le).
  - unfold sorted_paths. by rewrite merge_sort_Permutation.
Qed.

(** ** The playlist accessor and its frozen keys *)

Section PlaylistAccessorFacts.
Variable fs : FileSystem.
Variable map_path_to_idx : list (Path * Z).
Local Abbreviation getitem := (PlaylistAccessor_getitem map_path_to_idx).
Local Abbreviation step := (cycle_step fs map_path_to_idx).
Local Abbreviation run := (cycle_run fs map_path_to_idx).

Lemma getitem_frozen name self m :
  frozen_keys (getitem name self m).1.2 = {[name]} ∪ frozen_keys self.
Proof.
  unfold PlaylistAccessor_getitem.
  by destruct (DbAccessor_getitem _ _ _ _) as [[r c] m'].
Qed.

Lemma getitem_generated name self m :
  generated_playlists (getitem name self m).1.2 = generated_playlists self.
Proof.
  unfold PlaylistAccessor_getitem.
  by destruct (DbAccessor_getitem _ _ _ _) as [[r c] m'].
Qed.

(** A name that is cached is returned without any call on the
    connection. *)
Lemma getitem_cached name v self m :
  playlist_cache self !! name = Some v →
  getitem name self m =
    (Ok v, mkPlaylistAccessor (playlist_cache self)
                              ({[name]} ∪ frozen_keys self)
                              (generated_playlists self), m).
Proof.
  intros Hc. unfold PlaylistAccessor_getitem, DbAccessor_getitem.
  by rewrite Hc.
Qed.

Lemma setitem_frozen key value self :
  key ∈ frozen_keys self →
  PlaylistAccessor_setitem key value self = (Raise (conflict key), self).
Proof. intros Hin. unfold PlaylistAccessor_setitem. by rewrite decide_True. Qed.

Lemma setitem_not_frozen key value self :
  key ∉ frozen_keys self →
  PlaylistAccessor_setitem key value self =
    (Ok tt, mkPlaylistAccessor (<[key := value]> (playlist_cache self))
              (frozen_keys self)
              (dict_set (generated_playlists self) key value)).
Proof. intros Hin. unfold PlaylistAccessor_setitem. by rewrite decide_False. Qed.

Lemma setitem_frozen_keys key value self :
  frozen_keys (PlaylistAccessor_setitem key value self).2 = frozen_keys self.
Proof. unfold PlaylistAccessor_setitem. by case_decide. Qed.

(** What one operation does to the set of frozen keys. *)
Lemma step_frozen c op :
  frozen_keys (playlist (step c op).2) =
    match op with
    | playlist_get n => {[n]} ∪ frozen_keys (playlist c)
    | _ => frozen_keys (playlist c)
    end.
Proof.
  destruct op as [n | n | n | n v]; simpl.
  - by destruct (DbAccessor_getitem _ _ _ _) as [[r cache'] m'].
  - by destruct (DbAccessor_getitem _ _ _ _) as [[r cache'] m'].
  - rewrite <- (getitem_frozen n (playlist c) (mpd c)).
    by destruct (getitem n (playlist c) (mpd c)) as [[r self'] m'].
  - rewrite <- (setitem_frozen_keys n v (playlist c)).
    by destruct (PlaylistAccessor_setitem n v (playlist c)) as [r self'].
Qed.

Lemma run_cons c op ops : run c (op :: ops) = run (step c op).2 ops.
Proof. done. Qed.

Lemma run_snoc c ops op : run c (ops ++ [op]) = (step (run c ops) op).2.
Proof. unfold cycle_run. by rewrite foldl_app. Qed.

(** The frozen keys are exactly the names read so far. *)
Lemma run_frozen c ops name :
  name ∈ frozen_keys (playlist (run c ops)) ↔
  name ∈ frozen_keys (playlist c) ∨ reads name ops = true.
Proof.
  revert c. induction ops as [| op ops IH]; intros c.
  - simpl. intuition discriminate.
  - rewrite run_cons, IH, step_frozen.
    destruct op as [n | n | n | n v]; simpl; try tauto.
    rewrite elem_of_union, elem_of_singleton, orb_true_iff,
      bool_decide_eq_true. intuition congruence.
Qed.

Lemma frozen_preserved c ops name :
  name ∈ frozen_keys (playlist c) →
  name ∈ frozen_keys (playlist (run c ops)).
Proof. intros. apply run_frozen. by left. Qed.

Lemma fresh_not_frozen m0 ops name :
  reads name ops = false →
  name ∉ frozen_keys (playlist (run (fresh_cycle m0) ops)).
Proof.
  intros Hreads. rewrite run_frozen, Hreads. simpl.
  rewrite elem_of_empty. intuition discriminate.
Qed.

(** The state a script leaves is the state after the operations it
    performed. *)
Lemma execfile_run s c :
  ∃ ops, (execfile fs map_path_to_idx s c).2 = run c ops.
Proof.
  revert c. induction s as [| e | op k IH]; intros c; simpl.
  - by exists [].
  - by exists [].
  - destruct (step c op) as [o c'] eqn:Hstep.
    destruct (IH o c') as [ops Hops]. exists (op :: ops).
    by rewrite run_cons, Hstep.
Qed.
End PlaylistAccessorFacts.

(** C1.  Within one cycle, a playlist name can be assigned any number of
    times as long as it has not been read: after any operations that do not
    read it, an assignment succeeds and records the value both in the cache
    and in the generated playlists.  A read freezes the name whether the
    lookup succeeds or raises, a frozen name stays frozen through every
    later operation, and every later assignment to it raises the conflict
    error and changes nothing. *)
Theorem C1_frozen_key_invariant (fs : FileSystem)
    (map_path_to_idx : list (Path * Z)) (name : string) :
  (∀ m0 ops v,
      reads name ops = false →
      let c := cycle_run fs map_path_to_idx (fresh_cycle m0) ops in
      ∃ self',
        PlaylistAccessor_setitem name v (playlist c) = (Ok tt, self') ∧
        playlist_cache self' !! name = Some v ∧
        dict_get (generated_playlists self') name = Some v ∧
        name ∉ frozen_keys self') ∧
  (∀ self m,
      name ∈ frozen_keys
               (PlaylistAccessor_getitem map_path_to_idx name self m).1.2) ∧
  (∀ c ops,
      name ∈ frozen_keys (playlist c) →
      name ∈ frozen_keys (playlist (cycle_run fs map_path_to_idx c ops))) ∧
  (∀ c ops v,
      let c1 := (cycle_step fs map_path_to_idx c (playlist_get name)).2 in
      let c2 := cycle_run fs map_path_to_idx c1 ops in
      cycle_step fs map_path_to_idx c2 (playlist_set name v)
      = (raised (conflict name), c2)).
Proof.
  split_and!.
  - intros m0 ops v Hreads c.
    pose proof (fresh_not_frozen fs map_path_to_idx m0 ops name Hreads).
    eexists. rewrite setitem_not_frozen by done. simpl.
    split_and!; [done | apply lookup_insert_eq | apply dict_get_set_eq | done].
  - intros self m. rewrite getitem_frozen. set_solver.
  - intros c ops. apply frozen_preserved.
  - intros c ops v c1 c2.
    assert (name ∈ frozen_keys (playlist c2)) as Hfrozen.
    { apply frozen_preserved. unfold c1. rewrite step_frozen. set_solver. }
    simpl. rewrite setitem_frozen by done. by destruct c2.
Qed.

Lemma C1_frozen_key_invariant_witness :
  (∃ self',
     PlaylistAccessor_setitem "old" (VSeq [3; 0])
       (playlist (cycle_run (one_rule_fs []) sample_map_path_to_idx
                    (fresh_cycle sample_mpd)
                    [playlist_set "old" (VSet {[1]}); genre_get "Jazz"]))
     = (Ok tt, self') ∧
     playlist_cache self' !! "old" = Some (VSeq [3; 0]) ∧
     dict_get (generated_playlists self') "old" = Some (VSeq [3; 0]) ∧
     "old" ∉ frozen_keys self') ∧
  (let c1 := (cycle_step (one_rule_fs []) sample_map_path_to_idx
                (fresh_cycle sample_mpd) (playlist_get "none")).2 in
   let c2 := cycle_run (one_rule_fs []) sample_map_path_to_idx c1
               [label_get "foo"] in
   cycle_step (one_rule_fs []) sample_map_path_to_idx c2
     (playlist_set "none" (VSet ∅))
   = (raised (conflict "none"), c2)).
Proof.
  split.
  - exact (proj1 (C1_frozen_key_invariant (one_rule_fs [])
                    sample_map_path_to_idx "old")
             sample_mpd [playlist_set "old" (VSet {[1]}); genre_get "Jazz"]
             (VSeq [3; 0]) eq_refl).
  - exact (proj2 (proj2 (proj2 (C1_frozen_key_invariant (one_rule_fs [])
                                  sample_map_path_to_idx "none")))
             (fresh_cycle sample_mpd) [label_get "foo"] (VSet ∅)).
Defined.

(** C4.  A read of a playlist name followed by an assignment to the same
    name: the assignment raises the conflict error, whatever the read
    returned or raised, and leaves the accessor, hence the cached value of
    the name and the generated playlists, as the read left it. *)
Theorem C4_write_after_read_conflicts (map_path_to_idx : list (Path * Z))
    (name : string) (v : PlValue) (self : PlaylistAccessor) (m : Mpd) :
  let self1 := (PlaylistAccessor_getitem map_path_to_idx name self m).1.2 in
  let '(r, self2) := PlaylistAccessor_setitem name v self1 in
  r = Raise (conflict name) ∧
  playlist_cache self2 !! name = playlist_cache self1 !! name ∧
  playlist_cache self2 = playlist_cache self1 ∧
  generated_playlists self2 = generated_playlists self1 ∧
  generated_playlists self2 = generated_playlists self.
Proof.
  intros self1.
  rewrite setitem_frozen.
  - split_and!; try done. apply getitem_generated.
  - unfold self1. rewrite getitem_frozen. set_solver.
Qed.

(** C5.  For a name that has not been read in the cycle: assigning [v] and
    then reading the name returns [v] itself, and the read makes no call on
    the connection. *)
Theorem C5_read_after_write (fs : FileSystem)
    (map_path_to_idx : list (Path * Z))
    (m0 : Mpd) (ops : list ScriptOp) (name : string) (v : PlValue) :
  reads name ops = false →
  let c := cycle_run fs map_path_to_idx (fresh_cycle m0) ops in
  let '(o1, c1) := cycle_step fs map_path_to_idx c (playlist_set name v) in
  let '(o2, c2) := cycle_step fs map_path_to_idx c1 (playlist_get name) in
  o1 = assigned ∧ o2 = returned v ∧ log (mpd c2) = log (mpd c).
Proof.
  intros Hreads c.
  pose proof (fresh_not_frozen fs map_path_to_idx m0 ops name Hreads).
  simpl. rewrite setitem_not_frozen by done. simpl.
  erewrite getitem_cached by apply lookup_insert_eq.
  done.
Qed.

Lemma C5_read_after_write_witness :
  let c := cycle_run (one_rule_fs []) sample_map_path_to_idx
             (fresh_cycle sample_mpd) [playlist_get "none"; genre_get "Jazz"] in
  let '(o1, c1) := cycle_step (one_rule_fs []) sample_map_path_to_idx c
                     (playlist_set "old" (VSeq [3; 0])) in
  let '(o2, c2) := cycle_step (one_rule_fs []) sample_map_path_to_idx c1
                     (playlist_get "old") in
  o1 = assigned ∧ o2 = returned (VSeq [3; 0]) ∧ log (mpd c2) = log (mpd c).
Proof.
  exact (C5_read_after_write (one_rule_fs []) sample_map_path_to_idx
           sample_mpd [playlist_get "none"; genre_get "Jazz"] "old"
           (VSeq [3; 0]) eq_refl).
Defined.

(** ** The index of tracks by path *)

Section AllTracksByPath.
Implicit Types (result : gmap Path (list Z)) (i j : Z) (p q : Path).

Lemma register_is_Some i result p q :
  is_Some (register i result p !! q) ↔ is_Some (result !! q) ∨ q = p.
Proof.
  unfold register. destruct (decide (p = q)) as [-> | Hne].
  - rewrite lookup_insert_eq. split; [by right | by eexists].
  - rewrite lookup_insert_ne by done. intuition congruence.
Qed.

Lemma register_entries i j result p q :
  j ∈ entries (register i result p) q ↔
  j ∈ entries result q ∨ (j = i ∧ q = p).
Proof.
  unfold register, entries. destruct (decide (p = q)) as [-> | Hne].
  - rewrite lookup_insert_eq. simpl.
    rewrite elem_of_app, list_elem_of_singleton. tauto.
  - rewrite lookup_insert_ne by done. intuition congruence.
Qed.

Lemma registers_is_Some i result ps q :
  is_Some (foldl (register i) result ps !! q) ↔
  is_Some (result !! q) ∨ q ∈ ps.
Proof.
  revert result. induction ps as [| p ps IH]; intros result; simpl.
  - rewrite elem_of_nil. tauto.
  - rewrite IH, register_is_Some, elem_of_cons. tauto.
Qed.

Lemma registers_entries i j result ps q :
  j ∈ entries (foldl (register i) result ps) q ↔
  j ∈ entries result q ∨ (j = i ∧ q ∈ ps).
Proof.
  revert result. induction ps as [| p ps IH]; intros result; simpl.
  - rewrite elem_of_nil. tauto.
  - rewrite IH, register_entries, elem_of_cons. tauto.
Qed.

Lemma register_track_is_Some result pi q :
  is_Some (register_track result pi !! q) ↔
  is_Some (result !! q) ∨ q ∈ pi.1 :: parents pi.1.
Proof.
  destruct pi as [p i]. simpl.
  rewrite registers_is_Some, register_is_Some, elem_of_cons. tauto.
Qed.

Lemma register_track_entries result pi q j :
  j ∈ entries (register_track result pi) q ↔
  j ∈ entries result q ∨ (j = pi.2 ∧ q ∈ pi.1 :: parents pi.1).
Proof.
  destruct pi as [p i]. simpl.
  rewrite registers_entries, register_entries, elem_of_cons. tauto.
Qed.

Lemma register_tracks_is_Some result l q :
  is_Some (foldl register_track result l !! q) ↔
  is_Some (result !! q) ∨ has_track l q.
Proof.
  unfold has_track.
  revert result. induction l as [| pi l IH]; intros result; simpl.
  - rewrite Exists_nil. tauto.
  - rewrite IH, register_track_is_Some, Exists_cons. tauto.
Qed.

Lemma register_tracks_entries result l q j :
  j ∈ entries (foldl register_track result l) q ↔
  j ∈ entries result q ∨
  ∃ p, (p, j) ∈ l ∧ q ∈ p :: parents p.
Proof.
  revert result. induction l as [| pi l IH]; intros result; simpl.
  - setoid_rewrite elem_of_nil. split; [by left | ].
    intros [Hj | (p & [] & _)]. exact Hj.
  - rewrite IH, register_track_entries. setoid_rewrite elem_of_cons.
    destruct pi as [p i]. simpl. split.
    + intros [[Hj | [-> Hq]] | (p' & Hin & Hq)].
      * by left.
      * right. exists p. split; [by left | done].
      * right. exists p'. split; [by right | done].
    + intros [Hj | (p' & [[= -> ->] | Hin] & Hq)].
      * by do 2 left.
      * left. by right.
      * right. by exists p'.
Qed.

(** A path is a key of the index exactly when it holds a track. *)
Lemma all_tracks_by_path_is_Some l q :
  is_Some (all_tracks_by_path l !! q) ↔ has_track l q.
Proof.
  unfold all_tracks_by_path. rewrite lookup_fmap, fmap_is_Some,
    register_tracks_is_Some, lookup_empty.
  split; [intros [[? [=]] | ?]; done | by right].
Qed.

Lemma all_tracks_by_path_None l q :
  all_tracks_by_path l !! q = None ↔ ¬ has_track l q.
Proof. by rewrite <- all_tracks_by_path_is_Some, eq_None_not_Some. Qed.

(** The set under a key: the indices of the tracks at or below it. *)
Lemma all_tracks_by_path_elem l q (tracks : gset Z) j :
  all_tracks_by_path l !! q = Some tracks →
  j ∈ tracks ↔ ∃ p, (p, j) ∈ l ∧ q ∈ p :: parents p.
Proof.
  unfold all_tracks_by_path. rewrite lookup_fmap.
  destruct (foldl register_track ∅ l !! q) as [js |] eqn:Hq; [| done].
  intros [= <-]. rewrite elem_of_list_to_set.
  pose proof (register_tracks_entries ∅ l q j) as Hj.
  unfold entries in Hj. rewrite Hq, lookup_empty in Hj. simpl in Hj.
  rewrite Hj, elem_of_nil. tauto.
Qed.
End AllTracksByPath.

(** ** Label resolution *)

Section LabelFacts.
Variable atbp : gmap Path (gset Z).
Implicit Types (result : gset Z) (d q : Path) (l : list string).

Lemma dict_getitem_Some q (tracks : gset Z) :
  atbp !! q = Some tracks → dict_getitem atbp q = Ok tracks.
Proof. unfold dict_getitem. by intros ->. Qed.

Lemma dict_getitem_None q :
  atbp !! q = None → dict_getitem atbp q = Raise (mkExc KeyError [ArgPath q]).
Proof. unfold dict_getitem. by intros ->. Qed.

(** The loop over the listed subpaths, for either set operation: it
    completes when every subpath is a key of the index, and otherwise
    raises the [KeyError] of the first one that is not. *)
Lemma exceptions_loop (op : gset Z → gset Z → gset Z) d result l :
  let body := λ result p, b ← dict_getitem atbp (joinpath d p);
                          Ok (op result b) in
  (Forall (λ p, is_Some (atbp !! joinpath d p)) l →
   ∃ result', for_each body result l = Ok result') ∧
  (Exists (λ p, atbp !! joinpath d p = None) l →
   ∃ p, p ∈ l ∧ atbp !! joinpath d p = None ∧
        for_each body result l =
          Raise (mkExc KeyError [ArgPath (joinpath d p)])).
Proof.
  intros body. revert result.
  induction l as [| p l IH]; intros result; cbn [for_each].
  - split; [by eexists | by intros ?%Exists_nil].
  - destruct (atbp !! joinpath d p) as [b |] eqn:Hp.
    + assert (body result p = Ok (op result b)) as ->
        by (unfold body; by rewrite (dict_getitem_Some _ _ Hp)).
      change (Ok (op result b) ≫= _) with (for_each body (op result b) l).
      destruct (IH (op result b)) as [IHall IHex]. split.
      * intros Hall. apply Forall_cons in Hall as [_ Hall]. auto.
      * intros Hex. apply Exists_cons in Hex as [Hex | Hex]; [congruence |].
        destruct (IHex Hex) as (p' & Hin & Hnone & Hraise).
        exists p'. split_and!; [by right | done | done].
    + assert (body result p =
              Raise (mkExc KeyError [ArgPath (joinpath d p)])) as ->
        by (unfold body; by rewrite (dict_getitem_None _ Hp)).
      split.
      * intros Hall. apply Forall_cons in Hall as [[? ?] _]. congruence.
      * intros _. exists p. split_and!; [left | done | done].
Qed.

(** A rule file all of whose referenced paths are keys of the index
    never raises the [KeyError] of a path. *)
Lemma apply_tag_file_no_KeyError result tag_file q :
  Forall (λ q, is_Some (atbp !! q)) (referenced_paths tag_file) →
  apply_tag_file atbp result tag_file ≠ Raise (mkExc KeyError [ArgPath q]).
Proof.
  destruct tag_file as [d content]. unfold apply_tag_file, referenced_paths.
  simpl. unfold dict_popitem.
  destruct (rev content) as [| [key given_list] rest] eqn:Hrev; [done |].
  simpl. destruct (rev rest) as [| kv rest'] eqn:Hrest; [| done].
  apply (f_equal (@rev _)) in Hrest. rewrite rev_involutive in Hrest.
  subst rest. apply (f_equal (@rev _)) in Hrev.
  rewrite rev_involutive in Hrev. subst content. simpl.
  destruct (String.eqb key "all_except") eqn:Hall; simpl.
  - intros Href. apply Forall_cons in Href as [[a Ha] Href].
    rewrite (dict_getitem_Some _ _ Ha). simpl.
    destruct given_list as [l |]; [| done]. simpl in Href.
    rewrite Forall_fmap in Href.
    destruct (exceptions_loop (λ r b, r ∖ b) d (result ∪ a) l) as [Hok _].
    destruct (Hok Href) as [r' ->]. done.
  - destruct (String.eqb key "none_except") eqn:Hnone; simpl; [| done].
    intros Href. apply Forall_cons in Href as [[a Ha] Href].
    rewrite (dict_getitem_Some _ _ Ha). simpl.
    destruct given_list as [l |]; [| done]. simpl in Href.
    rewrite Forall_fmap in Href.
    destruct (exceptions_loop (λ r b, r ∪ b) d (result ∖ a) l) as [Hok _].
    destruct (Hok Href) as [r' ->]. done.
Qed.

(** A rule file with exactly one key either completes, when all its
    referenced paths are keys of the index, or raises the [KeyError] of
    one that is not. *)
Lemma apply_tag_file_single result tag_file :
  length (tag_file_content tag_file) = 1%nat →
  (Forall (λ q, is_Some (atbp !! q)) (referenced_paths tag_file) →
   ∃ result', apply_tag_file atbp result tag_file = Ok result') ∧
  (Exists (λ q, atbp !! q = None) (referenced_paths tag_file) →
   ∃ q, q ∈ referenced_paths tag_file ∧ atbp !! q = None ∧
        apply_tag_file atbp result tag_file =
          Raise (mkExc KeyError [ArgPath q])).
Proof.
  destruct tag_file as [d [| [key given_list] [| kv content]]]; try done.
  intros _. unfold apply_tag_file, referenced_paths. simpl.
  destruct (String.eqb key "all_except") eqn:Hall;
    [| destruct (String.eqb key "none_except") eqn:Hnone]; simpl.
  3: { split; [by eexists | by intros ?%Exists_nil]. }
  all: destruct (atbp !! d) as [a |] eqn:Hd;
    [ rewrite (dict_getitem_Some _ _ Hd)
    | rewrite (dict_getitem_None _ Hd);
      split;
      [ intros Href; apply Forall_cons in Href as [[? ?] _]; congruence
      | intros _; exists d; split_and!; [left | done | done] ] ].
  all: destruct given_list as [l |]; simpl;
    [| split; [by eexists |];
       intros Href; apply Exists_cons in Href as [Href | Href];
       [congruence | by apply Exists_nil in Href] ].
  - destruct (exceptions_loop (λ r b, r ∖ b) d (result ∪ a) l)
      as [Hok Hraise]. split.
    + intros Href. apply Forall_cons in Href as [_ Href].
      rewrite Forall_fmap in Href. by apply Hok.
    + intros Href. apply Exists_cons in Href as [Href | Href];
        [congruence |].
      rewrite Exists_fmap in Href.
      destruct (Hraise Href) as (p & Hin & Hnone & Hr).
      exists (joinpath d p). split_and!; [| done | done].
      right. apply list_elem_of_fmap. eauto.
  - destruct (exceptions_loop (λ r b, r ∪ b) d (result ∖ a) l)
      as [Hok Hraise]. split.
    + intros Href. apply Forall_cons in Href as [_ Href].
      rewrite Forall_fmap in Href. by apply Hok.
    + intros Href. apply Exists_cons in Href as [Href | Href];
        [congruence |].
      rewrite Exists_fmap in Href.
      destruct (Hraise Href) as (p & Hin & Hnone' & Hr).
      exists (joinpath d p). split_and!; [| done | done].
      right. apply list_elem_of_fmap. eauto.
Qed.

Local Abbreviation loop_body := (λ '(result, _) tag_file,
  result' ← apply_tag_file atbp result tag_file;
  Ok (result', true) : Result (gset Z * bool)).

Lemma loop_no_KeyError (st : gset Z * bool) tag_files q :
  Forall (λ tf, Forall (λ q, is_Some (atbp !! q)) (referenced_paths tf))
         tag_files →
  for_each loop_body st tag_files ≠ Raise (mkExc KeyError [ArgPath q]).
Proof.
  revert st. induction tag_files as [| tf tfs IH]; intros [result found];
    cbn [for_each]; [done |].
  intros Hall. apply Forall_cons in Hall as [Htf Htfs].
  pose proof (apply_tag_file_no_KeyError result tf q Htf) as Hno.
  destruct (apply_tag_file atbp result tf) as [result' | e]; simpl.
  - by apply IH.
  - congruence.
Qed.

Lemma loop_KeyError (st : gset Z * bool) tag_files :
  Forall (λ tf, length (tag_file_content tf) = 1%nat) tag_files →
  Exists (λ tf, Exists (λ q, atbp !! q = None) (referenced_paths tf))
         tag_files →
  ∃ tf q, tf ∈ tag_files ∧ q ∈ referenced_paths tf ∧ atbp !! q = None ∧
          for_each loop_body st tag_files =
            Raise (mkExc KeyError [ArgPath q]).
Proof.
  revert st. induction tag_files as [| tf tfs IH]; intros [result found];
    cbn [for_each]; [by intros _ ?%Exists_nil |].
  intros Hone Hex. apply Forall_cons in Hone as [Htf Htfs].
  destruct (apply_tag_file_single result tf Htf) as [Hok Hraise].
  destruct (decide (Exists (λ q, atbp !! q = None) (referenced_paths tf)))
    as [Hmiss | Hfine].
  - destruct (Hraise Hmiss) as (q & Hq & Hnone & ->).
    exists tf, q. split_and!; [left | done | done | done].
  - apply Exists_cons in Hex as [? | Hex]; [done |].
    apply not_Exists_Forall in Hfine; [| apply _].
    destruct Hok as [result' ->].
    { eapply Forall_impl; [exact Hfine |]. simpl. intros q Hq.
      by apply not_eq_None_Some. }
    simpl. destruct (IH (result', true) Htfs Hex)
      as (tf' & q & Hin & Hq & Hnone & Hr).
    exists tf', q. split_and!; [by right | done | done | done].
Qed.

Lemma loop_found (st : gset Z * bool) tag_files result found :
  for_each loop_body st tag_files = Ok (result, found) →
  found = match tag_files with [] => st.2 | _ => true end.
Proof.
  revert st. induction tag_files as [| tf tfs IH]; intros [r0 f0];
    cbn [for_each].
  - by intros [= _ <-].
  - destruct (apply_tag_file atbp r0 tf) as [r1 | e]; simpl; [| done].
    intros Hloop. apply IH in Hloop. by destruct tfs.
Qed.
End LabelFacts.

Section LabelLookupFacts.
Variable fs : FileSystem.
Variable map_path_to_idx : list (Path * Z).
Local Abbreviation atbp := (all_tracks_by_path map_path_to_idx).

(** What the lookup returns once [config] has answered. *)
Lemma LabelAccessor_lookup_root arg m root :
  music_directory m = Some root →
  LabelAccessor_lookup fs map_path_to_idx arg m =
    ('(result, label_found) ←
       apply_tag_files atbp (fs root (yml_file_name arg));
     if label_found : bool then Ok result
     else Raise (mkExc LookupError
                   [ArgMsg ("No file found named " +:+ yml_file_name arg)]),
     logged call_config m).
Proof.
  intros Hroot. unfold LabelAccessor_lookup, Mpd_config. by rewrite Hroot.
Qed.

(** With exactly one rule file found, the result is what its rule makes
    of the empty set. *)
Lemma LabelAccessor_lookup_single arg m root tag_file :
  music_directory m = Some root →
  fs root (yml_file_name arg) = [tag_file] →
  (LabelAccessor_lookup fs map_path_to_idx arg m).1 =
    apply_tag_file atbp ∅ tag_file.
Proof.
  intros Hroot Hfiles. rewrite (LabelAccessor_lookup_root _ _ _ Hroot).
  rewrite Hfiles. unfold apply_tag_files. simpl.
  by destruct (apply_tag_file atbp ∅ tag_file).
Qed.

End LabelLookupFacts.

(** C9, as the code has it.  The known track paths, each listed once, are
    sorted as [pathlib] paths, that is by their sequences of components
    (each component compared as a string, a proper prefix first), and the
    path at position [i] of that order receives index [i]; [all_tracks] is
    the set of the integers from [0] to [n - 1]. *)
Theorem C9_track_indices_by_path_order (objs : list ListallObj) :
  NoDup (file_paths objs) →
  let all_track_paths := all_track_paths_of objs in
  let map_path_to_idx := map_path_to_idx_of all_track_paths in
  all_track_paths ≡ₚ file_paths objs ∧
  (∀ i j p q,
      all_track_paths !! i = Some p → all_track_paths !! j = Some q →
      (i < j)%nat → parts_compare p q = Lt) ∧
  (∀ i p,
      all_track_paths !! i = Some p ↔
      dict_get map_path_to_idx p = Some (Z.of_nat i)) ∧
  (∀ z, z ∈ all_tracks_of all_track_paths ↔
        0 ≤ z < Z.of_nat (length (file_paths objs))).
Proof.
  intros Hnodup atp p2i.
  assert (atp ≡ₚ file_paths objs) as Hperm
    by apply (merge_sort_Permutation Path_le).
  assert (NoDup atp) as Hatp by by rewrite Hperm.
  split_and!.
  - done.
  - intros i j p q Hi Hj Hij.
    pose proof (StronglySorted_lookup_lt Path_le atp i j p q
                  (StronglySorted_merge_sort Path_le _) Hi Hj Hij) as Hle.
    unfold Path_le in Hle.
    destruct (parts_compare p q) eqn:Hpq; try done.
    apply parts_compare_eq in Hpq as ->.
    pose proof (NoDup_lookup atp i j q Hatp Hi Hj). lia.
  - intros i p. symmetry. by apply map_path_to_idx_of_lookup.
  - intros z. rewrite elem_of_all_tracks_of. by rewrite Hperm.
Qed.

Lemma C9_track_indices_by_path_order_witness :
  NoDup (file_paths air_listing) ∧
  let all_track_paths := all_track_paths_of air_listing in
  let map_path_to_idx := map_path_to_idx_of all_track_paths in
  all_track_paths ≡ₚ file_paths air_listing ∧
  (∀ i j p q,
      all_track_paths !! i = Some p → all_track_paths !! j = Some q →
      (i < j)%nat → parts_compare p q = Lt) ∧
  (∀ i p,
      all_track_paths !! i = Some p ↔
      dict_get map_path_to_idx p = Some (Z.of_nat i)) ∧
  (∀ z, z ∈ all_tracks_of all_track_paths ↔
        0 ≤ z < Z.of_nat (length (file_paths air_listing))).
Proof.
  assert (NoDup (file_paths air_listing)) as Hnodup.
  { compute_done. }
  split; [exact Hnodup |].
  exact (C9_track_indices_by_path_order air_listing Hnodup).
Defined.

(** C9, as stated, fails.  Sorted as strings, ["Air Supply/01.mp3"] comes
    before ["Air/02.mp3"] (a space is smaller than a slash), so it would
    receive index [0]; the program compares the components ["Air"] and
    ["Air Supply"] and gives it index [1]. *)
Lemma C9_counterexample :
  ¬ (∀ (uris : list string) (i : nat) (s : string),
       NoDup uris →
       sorted_strs uris !! i = Some s →
       dict_get (map_path_to_idx_of (all_track_paths_of (obj_file <$> uris)))
                (Path_of_string s) = Some (Z.of_nat i)).
Proof.
  intros H.
  specialize (H ["Air/02.mp3"; "Air Supply/01.mp3"] 0%nat "Air Supply/01.mp3").
  assert (NoDup ["Air/02.mp3"; "Air Supply/01.mp3"]) as Hnodup.
  { compute_done. }
  specialize (H Hnodup eq_refl).
  vm_compute in H. discriminate H.
Qed.

(** ** The caches of a cycle *)

Section CycleFacts.
Variable fs : FileSystem.
Variable map_path_to_idx : list (Path * Z).
Local Abbreviation step := (cycle_step fs map_path_to_idx).
Local Abbreviation run := (cycle_run fs map_path_to_idx).
Local Abbreviation inv := (cycle_inv fs map_path_to_idx).

Lemma GenreAccessor_lookup_static n m m' :
  find_reply m = find_reply m' →
  (GenreAccessor_lookup map_path_to_idx n m).1 =
  (GenreAccessor_lookup map_path_to_idx n m').1.
Proof. intros Hm. unfold GenreAccessor_lookup. simpl. by rewrite Hm. Qed.

Lemma LabelAccessor_lookup_static n m m' :
  music_directory m = music_directory m' →
  (LabelAccessor_lookup fs map_path_to_idx n m).1 =
  (LabelAccessor_lookup fs map_path_to_idx n m').1.
Proof. intros Hm. unfold LabelAccessor_lookup. simpl. by rewrite Hm. Qed.

Lemma GenreAccessor_lookup_mpd n m :
  (GenreAccessor_lookup map_path_to_idx n m).2 =
  logged (call_find (genre_filter n)) m.
Proof. done. Qed.

Lemma LabelAccessor_lookup_mpd n m :
  (LabelAccessor_lookup fs map_path_to_idx n m).2 = logged call_config m.
Proof. done. Qed.

Lemma PlaylistAccessor_lookup_mpd n m :
  (PlaylistAccessor_lookup map_path_to_idx n m).2 =
  logged (call_listplaylist n) m.
Proof. done. Qed.

(** [__getitem__] leaves the connection as it is or as the lookup left
    it, and adds to the cache at most the result of the lookup. *)
Lemma DbAccessor_getitem_cases {V} (lookup : string → Mpd → Result V * Mpd)
    arg cache m :
  let '(r, cache', m') := DbAccessor_getitem lookup arg cache m in
  (∃ v, cache !! arg = Some v ∧ r = Ok v ∧ cache' = cache ∧ m' = m) ∨
  (cache !! arg = None ∧ m' = (lookup arg m).2 ∧
   match (lookup arg m).1 with
   | Ok v => r = Ok v ∧ cache' = <[arg := v]> cache
   | Raise e =>
       r = Raise (if is_LookupError (exc_class e)
                  then mkExc IndexError (exc_args e) else e) ∧
       cache' = cache
   end).
Proof.
  unfold DbAccessor_getitem. destruct (cache !! arg) as [v |] eqn:Hc.
  - left. by exists v.
  - destruct (lookup arg m) as [[v | e] m']; simpl; by right.
Qed.

Lemma step_inv m0 c op : inv m0 c → inv m0 (step c op).2.
Proof.
  intros (Hfind & Hroot & Hstored & Hgenre & Hlabel).
  destruct op as [n | n | n | n v]; simpl.
  - pose proof (DbAccessor_getitem_cases
                  (GenreAccessor_lookup map_path_to_idx) n (genre c) (mpd c))
      as Hcases.
    destruct (DbAccessor_getitem _ n (genre c) (mpd c)) as [[r cache'] m'].
    destruct Hcases as [(v & _ & _ & -> & ->) | (Hmiss & -> & Hr)]; [done |].
    split_and!; try done.
    intros k v. cbn [snd genre].
    rewrite (GenreAccessor_lookup_static n (mpd c) m0) in Hr by done.
    destruct (GenreAccessor_lookup map_path_to_idx n m0).1 as [w | e] eqn:Hw;
      destruct Hr as [_ ->]; [| by auto].
    destruct (decide (n = k)) as [<- | Hne].
    + rewrite lookup_insert_eq. by intros [= <-].
    + rewrite lookup_insert_ne by done. auto.
  - pose proof (DbAccessor_getitem_cases
                  (LabelAccessor_lookup fs map_path_to_idx) n (label c)
                  (mpd c)) as Hcases.
    destruct (DbAccessor_getitem _ n (label c) (mpd c)) as [[r cache'] m'].
    destruct Hcases as [(v & _ & _ & -> & ->) | (Hmiss & -> & Hr)]; [done |].
    split_and!; try done.
    intros k v. cbn [snd label].
    rewrite (LabelAccessor_lookup_static n (mpd c) m0) in Hr by done.
    destruct (LabelAccessor_lookup fs map_path_to_idx n m0).1 as [w | e]
      eqn:Hw; destruct Hr as [_ ->]; [| by auto].
    destruct (decide (n = k)) as [<- | Hne].
    + rewrite lookup_insert_eq. by intros [= <-].
    + rewrite lookup_insert_ne by done. auto.
  - unfold PlaylistAccessor_getitem.
    pose proof (DbAccessor_getitem_cases
                  (PlaylistAccessor_lookup map_path_to_idx) n
                  (playlist_cache (playlist c)) (mpd c)) as Hcases.
    destruct (DbAccessor_getitem _ n _ (mpd c)) as [[r cache'] m'].
    by destruct Hcases as [(v & _ & _ & -> & ->) | (Hmiss & -> & Hr)].
  - by destruct (PlaylistAccessor_setitem n v (playlist c)) as [r self'].
Qed.

Lemma run_inv m0 c ops : inv m0 c → inv m0 (run c ops).
Proof.
  revert c. induction ops as [| op ops IH]; intros c Hc; [done |].
  apply IH, step_inv, Hc.
Qed.

Lemma fresh_inv m0 ops : inv m0 (run (fresh_cycle m0) ops).
Proof. apply run_inv. by split_and!. Qed.

(** The outcome of [label[arg]] in a cycle: the lookup's own result, with
    a [LookupError] turned into an [IndexError]. *)
Lemma label_get_outcome m0 ops arg :
  (step (run (fresh_cycle m0) ops) (label_get arg)).1 =
  match (LabelAccessor_lookup fs map_path_to_idx arg m0).1 with
  | Ok v => returned (VSet v)
  | Raise e => raised (if is_LookupError (exc_class e)
                       then mkExc IndexError (exc_args e) else e)
  end.
Proof.
  destruct (fresh_inv m0 ops) as (_ & Hroot & _ & _ & Hlabel).
  set (c := run (fresh_cycle m0) ops) in *. unfold cycle_step.
  pose proof (DbAccessor_getitem_cases
                (LabelAccessor_lookup fs map_path_to_idx) arg (label c)
                (mpd c)) as Hcases.
  destruct (DbAccessor_getitem _ arg (label c) (mpd c)) as [[r cache'] m'].
  rewrite (LabelAccessor_lookup_static arg (mpd c) m0) in Hcases by done.
  cbn [fst].
  destruct Hcases as [(v & Hhit & -> & _) | (_ & _ & Hr)].
  - by rewrite (Hlabel _ _ Hhit).
  - destruct (LabelAccessor_lookup fs map_path_to_idx arg m0).1;
      by destruct Hr as [-> _].
Qed.

End CycleFacts.

(** C2.  When the search finds exactly one rule file for the label, in
    directory [d]: with [all_except: [x, y]] the label resolves to the
    index entry of [d] minus those of [d/x] and [d/y]; with
    [none_except: [x]] it resolves to exactly the entry of [d/x]; with a
    null list the clause adds nothing, leaving the entry of [d] for
    [all_except] and the empty set for [none_except]. *)
Theorem C2_single_rule_file (fs : FileSystem)
    (map_path_to_idx : list (Path * Z)) (arg : string) (m : Mpd)
    (root : string) (d : Path) :
  music_directory m = Some root →
  let index := all_tracks_by_path map_path_to_idx in
  let resolve := (LabelAccessor_lookup fs map_path_to_idx arg m).1 in
  (∀ x y a b c,
      fs root (yml_file_name arg)
        = [mkRuleFile d [("all_except", Some [x; y])]] →
      index !! d = Some a →
      index !! joinpath d x = Some b →
      index !! joinpath d y = Some c →
      resolve = Ok (a ∖ b ∖ c)) ∧
  (∀ x a b,
      fs root (yml_file_name arg)
        = [mkRuleFile d [("none_except", Some [x])]] →
      index !! d = Some a →
      index !! joinpath d x = Some b →
      resolve = Ok b) ∧
  (∀ a,
      fs root (yml_file_name arg) = [mkRuleFile d [("all_except", None)]] →
      index !! d = Some a →
      resolve = Ok a) ∧
  (∀ a,
      fs root (yml_file_name arg) = [mkRuleFile d [("none_except", None)]] →
      index !! d = Some a →
      resolve = Ok ∅).
Proof.
  intros Hroot index resolve. subst index resolve.
  split_and!.
  - intros x y a b c Hfs Ha Hb Hc.
    rewrite (LabelAccessor_lookup_single fs _ _ _ _ _ Hroot Hfs).
    unfold apply_tag_file. simpl.
    rewrite (dict_getitem_Some _ _ _ Ha). simpl.
    rewrite (dict_getitem_Some _ _ _ Hb). simpl.
    rewrite (dict_getitem_Some _ _ _ Hc). simpl.
    f_equal. set_solver.
  - intros x a b Hfs Ha Hb.
    rewrite (LabelAccessor_lookup_single fs _ _ _ _ _ Hroot Hfs).
    unfold apply_tag_file. simpl.
    rewrite (dict_getitem_Some _ _ _ Ha). simpl.
    rewrite (dict_getitem_Some _ _ _ Hb). simpl.
    f_equal. set_solver.
  - intros a Hfs Ha.
    rewrite (LabelAccessor_lookup_single fs _ _ _ _ _ Hroot Hfs).
    unfold apply_tag_file. simpl.
    rewrite (dict_getitem_Some _ _ _ Ha). simpl.
    f_equal. set_solver.
  - intros a Hfs Ha.
    rewrite (LabelAccessor_lookup_single fs _ _ _ _ _ Hroot Hfs).
    unfold apply_tag_file. simpl.
    rewrite (dict_getitem_Some _ _ _ Ha). simpl.
    f_equal. set_solver.
Qed.

Lemma C2_single_rule_file_witness :
  (LabelAccessor_lookup (one_rule_fs [("all_except", Some ["a"; "b"])])
     sample_map_path_to_idx "foo" sample_mpd).1
    = Ok ({[0; 1; 2; 3]} ∖ {[0; 1]} ∖ {[2]}) ∧
  (LabelAccessor_lookup (one_rule_fs [("none_except", Some ["b"])])
     sample_map_path_to_idx "foo" sample_mpd).1
    = Ok {[2]} ∧
  (LabelAccessor_lookup (one_rule_fs [("all_except", None)])
     sample_map_path_to_idx "foo" sample_mpd).1
    = Ok {[0; 1; 2; 3]} ∧
  (LabelAccessor_lookup (one_rule_fs [("none_except", None)])
     sample_map_path_to_idx "foo" sample_mpd).1
    = Ok ∅.
Proof.
  split_and!.
  - refine (proj1 (C2_single_rule_file _ sample_map_path_to_idx "foo"
                     sample_mpd "/music" [] eq_refl)
              "a" "b" {[0; 1; 2; 3]} {[0; 1]} {[2]} eq_refl _ _ _);
      vm_compute; reflexivity.
  - refine (proj1 (proj2 (C2_single_rule_file _ sample_map_path_to_idx "foo"
                            sample_mpd "/music" [] eq_refl))
              "b" {[0; 1; 2; 3]} {[2]} eq_refl _ _);
      vm_compute; reflexivity.
  - refine (proj1 (proj2 (proj2 (C2_single_rule_file _ sample_map_path_to_idx
                                   "foo" sample_mpd "/music" [] eq_refl)))
              {[0; 1; 2; 3]} eq_refl _);
      vm_compute; reflexivity.
  - refine (proj2 (proj2 (proj2 (C2_single_rule_file _ sample_map_path_to_idx
                                   "foo" sample_mpd "/music" [] eq_refl)))
              {[0; 1; 2; 3]} eq_refl _);
      vm_compute; reflexivity.
Defined.

Example all_except_a_b :
  (LabelAccessor_lookup (one_rule_fs [("all_except", Some ["a"; "b"])])
     sample_map_path_to_idx "foo" sample_mpd).1 = Ok {[3]}.
Proof. vm_compute. reflexivity. Qed.

(** ** Plain names in the search *)










(** A rule file with more than one key stops the resolution with an
    [AssertionError], which [label[arg]] passes on unchanged. *)
Lemma label_get_many_keys (fs : FileSystem) (map_path_to_idx : list (Path * Z))
    (m0 : Mpd) (ops : list ScriptOp) (arg root : string) (d : Path)
    (content : list (string * option (list string))) :
  music_directory m0 = Some root →
  fs root (yml_file_name arg) = [mkRuleFile d content] →
  (1 < length content)%nat →
  (cycle_step fs map_path_to_idx
     (cycle_run fs map_path_to_idx (fresh_cycle m0) ops) (label_get arg)).1
  = raised (mkExc AssertionError []).
Proof.
  intros Hroot Hfs Hlen. rewrite label_get_outcome.
  rewrite (LabelAccessor_lookup_single fs _ _ _ _ _ Hroot Hfs).
  unfold apply_tag_file, dict_popitem. simpl.
  destruct (rev content) as [| [key given] [| kv rest]] eqn:Hrev.
  - apply (f_equal length) in Hrev. rewrite length_rev in Hrev.
    simpl in Hrev. lia.
  - apply (f_equal length) in Hrev. rewrite length_rev in Hrev.
    simpl in Hrev. lia.
  - simpl. destruct (rev rest ++ [kv]) eqn:Happ; [| done].
    by apply app_eq_nil in Happ as [_ [=]].
Qed.

(** A rule file with no key at all: [popitem] raises a [KeyError], which
    is a [LookupError], so [label[arg]] turns it into an [IndexError]. *)
Lemma label_get_no_key (fs : FileSystem) (map_path_to_idx : list (Path * Z))
    (m0 : Mpd) (ops : list ScriptOp) (arg root : string) (d : Path) :
  music_directory m0 = Some root →
  fs root (yml_file_name arg) = [mkRuleFile d []] →
  (cycle_step fs map_path_to_idx
     (cycle_run fs map_path_to_idx (fresh_cycle m0) ops) (label_get arg)).1
  = raised (mkExc IndexError [ArgMsg "popitem(): dictionary is empty"]).
Proof.
  intros Hroot Hfs. rewrite label_get_outcome.
  by rewrite (LabelAccessor_lookup_single fs _ _ _ _ _ Hroot Hfs).
Qed.

(** C8, on the program.  For the rule file [.label.foo.yml] holding the
    empty mapping, [label["foo"]] raises an [IndexError]: the class of the
    exception that reports a label without rule file, which a handler for
    the latter catches as well.  A rule file with two keys raises an
    [AssertionError]. *)
Theorem C8_empty_rule_file_raises_IndexError :
  (cycle_step (one_rule_fs []) sample_map_path_to_idx
     (fresh_cycle sample_mpd) (label_get "foo")).1
  = raised (mkExc IndexError [ArgMsg "popitem(): dictionary is empty"]) ∧
  exc_class (mkExc IndexError [ArgMsg "popitem(): dictionary is empty"])
  = exc_class (label_not_found "foo") ∧
  (cycle_step (one_rule_fs [("all_except", None); ("none_except", None)])
     sample_map_path_to_idx (fresh_cycle sample_mpd) (label_get "foo")).1
  = raised (mkExc AssertionError []).
Proof.
  split_and!.
  - exact (label_get_no_key (one_rule_fs []) sample_map_path_to_idx
             sample_mpd [] "foo" "/music" [] eq_refl eq_refl).
  - reflexivity.
  - apply (label_get_many_keys _ sample_map_path_to_idx sample_mpd []
             "foo" "/music" [] [("all_except", None); ("none_except", None)]);
      [done | done | simpl; lia].
Qed.

(** C10.  The index of tracks by path is looked up without a guard.  For
    rule files of one key each: when the directory of a rule file, or a
    subpath it lists, holds no track, the resolution raises the [KeyError]
    of such a path (an [IndexError] once it has passed through
    [label[arg]]) instead of taking the empty set for it.  When every
    directory and every listed subpath holds a track, the resolution never
    raises the [KeyError] of a path. *)
Theorem C10_unguarded_index_lookup (fs : FileSystem)
    (map_path_to_idx : list (Path * Z)) (m0 : Mpd) (ops : list ScriptOp)
    (arg root : string) :
  music_directory m0 = Some root →
  let tag_files := fs root (yml_file_name arg) in
  let resolve := (LabelAccessor_lookup fs map_path_to_idx arg m0).1 in
  (Forall (λ tf, length (tag_file_content tf) = 1%nat) tag_files →
   Exists (λ tf, Exists (λ q, ¬ has_track map_path_to_idx q)
                        (referenced_paths tf)) tag_files →
   ∃ tf q,
     tf ∈ tag_files ∧ q ∈ referenced_paths tf ∧
     ¬ has_track map_path_to_idx q ∧
     resolve = Raise (mkExc KeyError [ArgPath q]) ∧
     is_LookupError KeyError = true ∧
     (cycle_step fs map_path_to_idx
        (cycle_run fs map_path_to_idx (fresh_cycle m0) ops) (label_get arg)).1
     = raised (mkExc IndexError [ArgPath q])) ∧
  (Forall (λ tf, Forall (has_track map_path_to_idx) (referenced_paths tf))
          tag_files →
   ∀ q, resolve ≠ Raise (mkExc KeyError [ArgPath q])).
Proof.
  intros Hroot tag_files resolve. subst resolve.
  rewrite (LabelAccessor_lookup_root fs _ _ _ _ Hroot).
  fold tag_files. unfold apply_tag_files. split.
  - intros Hone Hmiss.
    destruct (loop_KeyError (all_tracks_by_path map_path_to_idx) (∅, false)
                tag_files Hone) as (tf & q & Hin & Hq & Hnone & Hraise).
    { eapply Exists_impl; [exact Hmiss |]. simpl. intros tf Htf.
      eapply Exists_impl; [exact Htf |]. simpl. intros q.
      apply all_tracks_by_path_None. }
    exists tf, q. apply all_tracks_by_path_None in Hnone.
    assert ((LabelAccessor_lookup fs map_path_to_idx arg m0).1
            = Raise (mkExc KeyError [ArgPath q])) as Hlookup.
    { rewrite (LabelAccessor_lookup_root fs _ _ _ _ Hroot).
      fold tag_files. unfold apply_tag_files. cbn [fst]. by rewrite Hraise. }
    split_and!; try done.
    + cbn [fst]. by rewrite Hraise.
    + by rewrite label_get_outcome, Hlookup.
  - intros Hall q. cbn [fst].
    pose proof (loop_no_KeyError (all_tracks_by_path map_path_to_idx)
                  (∅, false) tag_files q) as Hno.
    destruct (for_each _ (∅, false) tag_files) as [[result found] | e] eqn:Hloop.
    + simpl. by destruct found.
    + simpl. intros [= ->]. apply Hno; [| done].
      eapply Forall_impl; [exact Hall |]. simpl. intros tf Htf.
      eapply Forall_impl; [exact Htf |]. simpl. intros q'.
      apply all_tracks_by_path_is_Some.
Qed.

Lemma C10_unguarded_index_lookup_witness :
  (∃ tf q,
     tf ∈ one_rule_fs [("all_except", Some ["d"])] "/music"
            (yml_file_name "foo") ∧
     q ∈ referenced_paths tf ∧
     ¬ has_track sample_map_path_to_idx q ∧
     (LabelAccessor_lookup (one_rule_fs [("all_except", Some ["d"])])
        sample_map_path_to_idx "foo" sample_mpd).1
     = Raise (mkExc KeyError [ArgPath q]) ∧
     is_LookupError KeyError = true ∧
     (cycle_step (one_rule_fs [("all_except", Some ["d"])])
        sample_map_path_to_idx
        (cycle_run (one_rule_fs [("all_except", Some ["d"])])
           sample_map_path_to_idx (fresh_cycle sample_mpd) [])
        (label_get "foo")).1
     = raised (mkExc IndexError [ArgPath q])) ∧
  (∀ q,
     (LabelAccessor_lookup (one_rule_fs [("all_except", Some ["a"])])
        sample_map_path_to_idx "foo" sample_mpd).1
     ≠ Raise (mkExc KeyError [ArgPath q])).
Proof.
  split.
  - apply (proj1 (C10_unguarded_index_lookup
                    (one_rule_fs [("all_except", Some ["d"])])
                    sample_map_path_to_idx sample_mpd [] "foo" "/music"
                    eq_refl)).
    + compute_done.
    + compute_done.
  - apply (proj2 (C10_unguarded_index_lookup
                    (one_rule_fs [("all_except", Some ["a"])])
                    sample_map_path_to_idx sample_mpd [] "foo" "/music"
                    eq_refl)).
    compute_done.
Defined.

(** ** The synchronisation loop *)

Section SyncFacts.
Variable all_track_paths : list Path.
Implicit Types (m : Mpd) (st : gmap string (list string))
  (name : string) (names : list string).

Lemma exec_playlistadds st q name names :
  exec_commands st q (List.map (cmd_playlistadd name) names) =
  (Ok tt, match names with
          | [] => st
          | _ => <[name := default [] (st !! name) ++ names]> st
          end).
Proof.
  revert st. induction names as [| x names IH]; intros st; [done |].
  simpl. rewrite IH. f_equal. destruct names as [| y names]; [done |].
  rewrite lookup_insert_eq, insert_insert_eq. simpl.
  by rewrite <- app_assoc.
Qed.

Lemma translate_raise_sync name value e m :
  track_names_of all_track_paths value = Raise e →
  sync_playlist all_track_paths m (name, value) = (Raise e, m).
Proof. intros Hnames. unfold sync_playlist. by rewrite Hnames. Qed.

(** The three branches of the loop body. *)
Lemma sync_playlist_create name value m :
  track_names_of all_track_paths value = Ok [] →
  stored m !! name = None →
  sync_playlist all_track_paths m (name, value) =
    (Ok tt, with_stored (<[name := []]> (<[name := queue m]> (stored m)))
              (logged (call_command_list
                         [cmd_save name; cmd_playlistclear name])
                 (logged (call_listplaylist name) m))).
Proof.
  intros Hnames Hold. unfold sync_playlist, Mpd_listplaylist.
  rewrite Hnames, Hold. simpl.
  unfold Mpd_command_list. simpl. by rewrite Hold.
Qed.

Lemma sync_playlist_send name value names m :
  track_names_of all_track_paths value = Ok names →
  names ≠ default [] (stored m !! name) →
  sync_playlist all_track_paths m (name, value) =
    (Ok tt,
     with_stored (<[name := names]> (stored m))
       (logged (call_command_list
                  ((if stored m !! name is Some _
                    then [cmd_playlistclear name] else [])
                   ++ List.map (cmd_playlistadd name) names))
          (logged (call_listplaylist name) m))).
Proof.
  intros Hnames Hdiff. unfold sync_playlist, Mpd_listplaylist.
  rewrite Hnames. destruct (stored m !! name) as [old |] eqn:Hold; simpl.
  - rewrite bool_decide_eq_true_2 by done.
    unfold Mpd_command_list. simpl. rewrite exec_playlistadds.
    simpl. do 2 f_equal.
    destruct names; [done |].
    by rewrite lookup_insert_eq, insert_insert_eq.
  - simpl in Hdiff.
    rewrite (bool_decide_eq_false_2 (names = [])) by done.
    rewrite bool_decide_eq_true_2 by done.
    unfold Mpd_command_list. simpl. rewrite exec_playlistadds.
    simpl. do 2 f_equal.
    destruct names; [done |]. by rewrite Hold.
Qed.

Lemma sync_playlist_fixed name value names m :
  track_names_of all_track_paths value = Ok names →
  stored m !! name = Some names →
  sync_playlist all_track_paths m (name, value) =
    (Ok tt, logged (call_listplaylist name) m).
Proof.
  intros Hnames Hold. unfold sync_playlist, Mpd_listplaylist.
  rewrite Hnames, Hold. simpl.
  by rewrite bool_decide_eq_false_2 by (by intros ?).
Qed.

(** After an iteration that does not raise, the stored playlist holds
    the normalised sequence, and no other playlist has changed. *)
Lemma sync_playlist_stored name value names m :
  track_names_of all_track_paths value = Ok names →
  ∃ m', sync_playlist all_track_paths m (name, value) = (Ok tt, m') ∧
        stored m' !! name = Some names ∧
        ∀ k, k ≠ name → stored m' !! k = stored m !! k.
Proof.
  intros Hnames.
  destruct (decide (names = default [] (stored m !! name))) as [Heq | Hne].
  - destruct (stored m !! name) as [old |] eqn:Hold; simpl in Heq.
    + subst old. rewrite (sync_playlist_fixed _ _ _ _ Hnames Hold).
      eexists. by split_and!.
    + subst names. rewrite (sync_playlist_create _ _ _ Hnames Hold).
      eexists. split; [done |]. simpl. split.
      * apply lookup_insert_eq.
      * intros k Hk. by rewrite !lookup_insert_ne.
  - rewrite (sync_playlist_send _ _ _ _ Hnames Hne).
    eexists. split; [done |]. simpl. split.
    + apply lookup_insert_eq.
    + intros k Hk. by rewrite lookup_insert_ne.
Qed.

Lemma sync_playlists_frame generated m k :
  k ∉ generated.*1 →
  stored (sync_playlists all_track_paths m generated).2 !! k
  = stored m !! k.
Proof.
  revert m. induction generated as [| [name value] rest IH]; intros m;
    csimpl; [done |].
  rewrite not_elem_of_cons. intros [Hk Hrest].
  destruct (track_names_of all_track_paths value) as [names | e] eqn:Hnames.
  - destruct (sync_playlist_stored name value names m Hnames)
      as (m' & -> & _ & Hother).
    rewrite IH by done. by apply Hother.
  - by rewrite (translate_raise_sync _ _ _ _ Hnames).
Qed.

(** Running the loop again, on a connection that stores what the first
    run left, sends no command list. *)
Lemma sync_playlists_twice generated :
  NoDup generated.*1 →
  ∀ m m1',
    stored m1' = stored (sync_playlists all_track_paths m generated).2 →
    (sync_playlists all_track_paths m1' generated).1
    = (sync_playlists all_track_paths m generated).1 ∧
    stored (sync_playlists all_track_paths m1' generated).2 = stored m1' ∧
    ∃ calls,
      log (sync_playlists all_track_paths m1' generated).2
      = log m1' ++ calls ∧
      mutations calls = [].
Proof.
  induction generated as [| [name value] rest IH]; csimpl.
  - intros _ m m1' _. split_and!; [done | done |].
    exists []. by rewrite app_nil_r.
  - rewrite NoDup_cons. intros [Hname Hrest] m m1'.
    destruct (track_names_of all_track_paths value) as [names | e] eqn:Hnames.
    + destruct (sync_playlist_stored name value names m Hnames)
        as (ma & -> & Hstored & _).
      intros Hm1'.
      assert (stored m1' !! name = Some names) as Hfixed.
      { by rewrite Hm1', sync_playlists_frame. }
      rewrite (sync_playlist_fixed _ _ _ _ Hnames Hfixed).
      destruct (IH Hrest ma (logged (call_listplaylist name) m1') Hm1')
        as (Hr & Hst & calls & Hlog & Hmut).
      split_and!; [done | done |].
      exists (call_listplaylist name :: calls).
      split; [| done]. rewrite Hlog. simpl. by rewrite <- app_assoc.
    + rewrite !(translate_raise_sync _ _ _ _ Hnames). intros _.
      split_and!; [done | done |]. exists []. by rewrite app_nil_r.
Qed.
End SyncFacts.

Lemma translate_Forall2 (all_track_paths : list Path) (idxs : list Z)
    (names : list string) :
  translate all_track_paths idxs = Ok names →
  Forall2 (λ i x, ∃ p, py_index all_track_paths i = Ok p ∧ x = Path_str p)
          idxs names.
Proof.
  unfold translate. revert names.
  induction idxs as [| i idxs IH]; intros names; simpl.
  - intros [= <-]. constructor.
  - destruct (py_index all_track_paths i) as [p | e] eqn:Hp; simpl; [| done].
    destruct (mapM _ idxs) as [names' | e]; simpl; [| done].
    intros [= <-]. constructor; [by exists p | by apply IH].
Qed.

(** An index within bounds, counted from the front, selects that
    position. *)
Lemma py_index_nonneg {A} (l : list A) (i : nat) (x : A) :
  l !! i = Some x → py_index l (Z.of_nat i) = Ok x.
Proof.
  intros Hi. unfold py_index. apply lookup_lt_Some in Hi as Hlt.
  rewrite (proj2 (Z.ltb_ge _ _)) by lia.
  rewrite (proj2 (Z.leb_le _ _)) by lia.
  rewrite (proj2 (Z.ltb_lt _ _)) by lia. simpl.
  by rewrite Nat2Z.id, Hi.
Qed.




(** C7.  Running the synchronisation loop a second time over the same
    generated playlists, on the server state the first run left, sends no
    command list: the second run only queries the playlists, leaves the
    stored playlists as they are, and ends as the first run ended. *)
Theorem C7_sync_idempotent (all_track_paths : list Path) (m : Mpd)
    (generated : list (string * PlValue)) :
  NoDup generated.*1 →
  let '(r1, m1) := sync_playlists all_track_paths m generated in
  let '(r2, m2) := sync_playlists all_track_paths m1 generated in
  (∃ calls, log m2 = log m1 ++ calls ∧ mutations calls = []) ∧
  stored m2 = stored m1 ∧
  r2 = r1.
Proof.
  intros Hnodup.
  pose proof (sync_playlists_twice all_track_paths generated Hnodup m
                (sync_playlists all_track_paths m generated).2 eq_refl)
    as (Hr & Hst & Hcalls).
  destruct (sync_playlists all_track_paths m generated) as [r1 m1].
  simpl in *.
  destruct (sync_playlists all_track_paths m1 generated) as [r2 m2].
  by split_and!.
Qed.

Lemma C7_sync_idempotent_witness :
  NoDup [("new", VSet ∅); ("old", VSeq [3; 0])].*1 ∧
  let '(r1, m1) := sync_playlists sample_paths sample_mpd
                     [("new", VSet ∅); ("old", VSeq [3; 0])] in
  let '(r2, m2) := sync_playlists sample_paths m1
                     [("new", VSet ∅); ("old", VSeq [3; 0])] in
  (∃ calls, log m2 = log m1 ++ calls ∧ mutations calls = []) ∧
  stored m2 = stored m1 ∧
  r2 = r1.
Proof.
  assert (NoDup [("new", VSet ∅); ("old", VSeq [3; 0])].*1) as Hnodup
    by compute_done.
  split; [exact Hnodup |].
  exact (C7_sync_idempotent sample_paths sample_mpd _ Hnodup).
Defined.

(** The playlists a script generates never list a name twice, so the loop
    is idempotent on them. *)
Lemma generated_playlists_NoDup (fs : FileSystem)
    (map_path_to_idx : list (Path * Z)) (m0 : Mpd) (ops : list ScriptOp) :
  NoDup (generated_playlists
           (playlist (cycle_run fs map_path_to_idx (fresh_cycle m0) ops))).*1.
Proof.
  induction ops as [| op ops IH] using rev_ind; [constructor |].
  rewrite run_snoc.
  set (c := cycle_run fs map_path_to_idx (fresh_cycle m0) ops) in *.
  destruct op as [n | n | n | n v]; simpl.
  - by destruct (DbAccessor_getitem _ _ _ _) as [[r cache'] m'].
  - by destruct (DbAccessor_getitem _ _ _ _) as [[r cache'] m'].
  - pose proof (getitem_generated map_path_to_idx n (playlist c) (mpd c)).
    destruct (PlaylistAccessor_getitem _ _ _ _) as [[r self'] m'].
    simpl in *. congruence.
  - unfold PlaylistAccessor_setitem. case_decide; simpl; [done |].
    by apply dict_set_NoDup.
Qed.

(** The create-then-clear case: the first run creates the empty playlist,
    the second run finds it and only queries it. *)
Example create_then_clear_once :
  let m1 := (sync_playlists sample_paths sample_mpd [("new", VSet ∅)]).2 in
  let m2 := (sync_playlists sample_paths m1 [("new", VSet ∅)]).2 in
  mutations (log m1) = [cmd_save "new"; cmd_playlistclear "new"] ∧
  stored m1 !! "new" = Some [] ∧
  log m2 = log m1 ++ [call_listplaylist "new"].
Proof. vm_compute. done. Qed.

(** * Further properties *)

(** ** Paths and their strings *)

Lemma split_on_no_slash (s : string) : Forall (λ c, no_slash c = true)
                                              (split_on slash s).
Proof.
  induction s as [| ch s IH]; simpl; [by repeat constructor |].
  destruct (Ascii.eqb ch slash) eqn:Hch.
  - by constructor.
  - destruct (split_on slash s) as [| w ws].
    { constructor; [simpl; by rewrite Hch | constructor]. }
    apply Forall_cons in IH as [Hw Hws]. constructor; [| done].
    simpl. by rewrite Hch, Hw.
Qed.

Lemma split_on_slash_free (c : string) :
  no_slash c = true → split_on slash c = [c].
Proof.
  induction c as [| ch c IH]; simpl; [done |].
  intros [Hch Hc]%andb_true_iff. apply negb_true_iff in Hch.
  by rewrite Hch, IH.
Qed.

Lemma split_on_app (c rest : string) :
  no_slash c = true →
  split_on slash (c +:+ String slash rest) = c :: split_on slash rest.
Proof.
  induction c as [| ch c IH]; simpl.
  - done.
  - intros [Hch Hc]%andb_true_iff. apply negb_true_iff in Hch.
    by rewrite Hch, IH.
Qed.

Lemma split_on_join (comps : list string) :
  comps ≠ [] → Forall (λ c, no_slash c = true) comps →
  split_on slash (join_with "/" comps) = comps.
Proof.
  induction comps as [| c comps IH]; [done |]. intros _ Hall.
  apply Forall_cons in Hall as [Hc Hcomps].
  destruct comps as [| c' comps].
  - simpl. by apply split_on_slash_free.
  - change (join_with "/" (c :: c' :: comps))
      with (c +:+ String slash (join_with "/" (c' :: comps))).
    rewrite split_on_app by done. by rewrite IH.
Qed.

Lemma leading_slashes_app (c rest : string) :
  no_slash c = true → c ≠ EmptyString → leading_slashes (c +:+ rest) = 0%nat.
Proof.
  destruct c as [| ch c]; [done |]. simpl.
  intros [Hch _]%andb_true_iff _. apply negb_true_iff in Hch. by rewrite Hch.
Qed.

Lemma leading_slashes_join (comps : list string) :
  Forall (λ c, no_slash c = true ∧ is_component c = true) comps →
  leading_slashes (join_with "/" comps) = 0%nat.
Proof.
  destruct comps as [| c comps]; [done |].
  intros [[Hc Hcomp] _]%Forall_cons.
  assert (c ≠ EmptyString) as Hne by (by intros ->).
  destruct comps as [| c' comps].
  - destruct c as [| ch c]; [done |]. simpl in *.
    apply andb_true_iff in Hc as [Hch _]. apply negb_true_iff in Hch.
    by rewrite Hch.
  - change (join_with "/" (c :: c' :: comps))
      with (c +:+ String slash (join_with "/" (c' :: comps))).
    by apply leading_slashes_app.
Qed.

Lemma is_root_has_slash (c : string) : is_root c = true → no_slash c = false.
Proof.
  unfold is_root. intros [Hc | Hc]%orb_true_iff;
    apply String.eqb_eq in Hc; by subst.
Qed.

Lemma components_good (s : string) :
  Forall (λ c, no_slash c = true ∧ is_component c = true)
         (List.filter is_component (split_on slash s)).
Proof.
  pose proof (split_on_no_slash s) as Hall.
  induction Hall as [| c l Hc Hl IH]; simpl; [constructor |].
  destruct (is_component c) eqn:Hcomp; [by constructor | done].
Qed.

Lemma filter_components (comps : list string) :
  Forall (λ c, no_slash c = true ∧ is_component c = true) comps →
  List.filter is_component comps = comps.
Proof.
  induction 1 as [| c l [_ Hc] Hl IH]; simpl; [done |].
  by rewrite Hc, IH.
Qed.

Lemma parse_join (comps : list string) :
  Forall (λ c, no_slash c = true ∧ is_component c = true) comps →
  List.filter is_component (split_on slash (join_with "/" comps)) = comps.
Proof.
  intros Hall. destruct comps as [| c comps]; [done |].
  rewrite split_on_join; [by apply filter_components | done |].
  eapply Forall_impl; [exact Hall |]. by intros ? [? _].
Qed.

Lemma Path_of_string_root1 (j : string) :
  leading_slashes j = 0%nat →
  Path_of_string (String slash j)
  = "/" :: List.filter is_component (split_on slash j).
Proof.
  intros Hj. unfold Path_of_string, root_of.
  cbn [leading_slashes split_on]. rewrite Ascii.eqb_refl, Hj. done.
Qed.

Lemma Path_of_string_root2 (j : string) :
  leading_slashes j = 0%nat →
  Path_of_string (String slash (String slash j))
  = "//" :: List.filter is_component (split_on slash j).
Proof.
  intros Hj. unfold Path_of_string, root_of.
  cbn [leading_slashes split_on]. rewrite Ascii.eqb_refl, Hj. done.
Qed.

(** Turning a parsed path into its string and parsing that string gives
    the path back. *)
Lemma Path_of_string_str (s : string) :
  Path_of_string (Path_str (Path_of_string s)) = Path_of_string s.
Proof.
  unfold Path_of_string at 2 3.
  pose proof (components_good s) as Hall.
  set (comps := List.filter is_component (split_on slash s)) in *.
  pose proof (leading_slashes_join comps Hall) as Hlead.
  pose proof (parse_join comps Hall) as Hparse.
  unfold root_of.
  destruct (leading_slashes s) as [| [| [| k]]]; simpl.
  - destruct comps as [| c rest]; [done |].
    apply Forall_cons in Hall as Hc. destruct Hc as [[Hc _] _].
    unfold Path_str.
    destruct (is_root c) eqn:Hroot.
    { apply is_root_has_slash in Hroot. congruence. }
    unfold Path_of_string, root_of. by rewrite Hlead, Hparse.
  - change (Path_of_string (String slash (join_with "/" comps)) = "/" :: comps).
    by rewrite Path_of_string_root1, Hparse.
  - change (Path_of_string (String slash (String slash (join_with "/" comps)))
            = "//" :: comps).
    by rewrite Path_of_string_root2, Hparse.
  - change (Path_of_string (String slash (join_with "/" comps)) = "/" :: comps).
    by rewrite Path_of_string_root1, Hparse.
Qed.

(** ** Indices and their translation *)

Lemma py_index_in_range {A} (l : list A) (i : Z) :
  in_range (length l) i →
  ∃ x, l !! Z.to_nat (normal_index (length l) i) = Some x ∧
       py_index l i = Ok x.
Proof.
  unfold in_range, py_index, normal_index. intros Hi.
  set (j := if i <? 0 then i + Z.of_nat (length l) else i).
  assert (0 ≤ j < Z.of_nat (length l)) as Hj.
  { unfold j. destruct (Z.ltb_spec i 0); lia. }
  rewrite (proj2 (Z.leb_le 0 j)) by lia.
  rewrite (proj2 (Z.ltb_lt j _)) by lia. simpl.
  destruct (lookup_lt_is_Some_2 l (Z.to_nat j)) as [x Hx]; [lia |].
  exists x. by rewrite Hx.
Qed.

Lemma py_index_out_of_range {A} (l : list A) (i : Z) :
  ¬ in_range (length l) i → py_index l i = Raise (index_exception i).
Proof.
  unfold in_range, py_index, index_exception, index_error, overflow_error.
  intros Hi.
  set (j := if i <? 0 then i + Z.of_nat (length l) else i).
  assert ((0 <=? j) && (j <? Z.of_nat (length l)) = false) as ->.
  { apply andb_false_iff. unfold j.
    destruct (Z.ltb_spec i 0); [left | right].
    - apply Z.leb_gt. lia.
    - apply Z.ltb_ge. lia. }
  by destruct (fits_index i).
Qed.

Lemma translate_in_range (all_track_paths : list Path) (idxs : list Z) :
  Forall (in_range (length all_track_paths)) idxs →
  ∃ names, translate all_track_paths idxs = Ok names ∧
           Forall2 (λ i x, ∃ p,
                      all_track_paths
                        !! Z.to_nat (normal_index (length all_track_paths) i)
                      = Some p ∧ x = Path_str p) idxs names.
Proof.
  unfold translate. induction 1 as [| i idxs Hi Hidxs IH]; simpl.
  - eexists. split; [done | constructor].
  - destruct (py_index_in_range all_track_paths i Hi) as (p & Hp & ->).
    destruct IH as (names & -> & Hnames). simpl.
    eexists. split; [done |]. constructor; [by exists p | done].
Qed.

(** The translation stops at the first index outside the list, with the
    exception of that index. *)
Lemma translate_out_of_range (all_track_paths : list Path) (idxs : list Z) :
  Exists (λ i, ¬ in_range (length all_track_paths) i) idxs →
  ∃ i, i ∈ idxs ∧ ¬ in_range (length all_track_paths) i ∧
       translate all_track_paths idxs = Raise (index_exception i).
Proof.
  unfold translate. induction idxs as [| i idxs IH]; simpl.
  - by intros ?%Exists_nil.
  - intros Hex.
    destruct (decide (in_range (length all_track_paths) i)) as [Hi | Hi].
    + destruct (py_index_in_range all_track_paths i Hi) as (p & _ & ->).
      apply Exists_cons in Hex as [? | Hex]; [done |].
      destruct (IH Hex) as (i' & Hin & Hi' & ->).
      exists i'. split_and!; [by right | done | done].
    + exists i. rewrite (py_index_out_of_range _ _ Hi).
      split_and!; [left | done | done].
Qed.

Lemma ordered_indices_Permutation (v : PlValue) :
  ordered_indices v ≡ₚ indices_of v.
Proof.
  destruct v as [s | l]; simpl; [| done].
  apply (merge_sort_Permutation Z.le).
Qed.

Lemma track_names_of_in_range (all_track_paths : list Path) (v : PlValue) :
  Forall (in_range (length all_track_paths)) (indices_of v) →
  ∃ names,
    track_names_of all_track_paths v = Ok names ∧
    Forall2 (λ i x, ∃ p,
               all_track_paths
                 !! Z.to_nat (normal_index (length all_track_paths) i)
               = Some p ∧ x = Path_str p)
            (ordered_indices v) names.
Proof.
  intros Hall. apply translate_in_range.
  rewrite <- ordered_indices_Permutation in Hall. exact Hall.
Qed.

(** X1.  The value of a playlist translates exactly when each of its
    indices lies between [-n] and [n - 1], for [n] known tracks: then there
    is one path string per index, a negative index counting from the end.
    Otherwise the translation raises the [IndexError] of one of the indices
    outside that range: "list index out of range" when that index fits a
    signed 64-bit integer, "cannot fit 'int' into an index-sized integer"
    when it does not. *)
Theorem X1_translation_bounds (all_track_paths : list Path) (v : PlValue) :
  let n := length all_track_paths in
  (Forall (in_range n) (indices_of v) →
   ∃ names,
     track_names_of all_track_paths v = Ok names ∧
     Forall2 (λ i x, ∃ p, all_track_paths !! Z.to_nat (normal_index n i)
                          = Some p ∧ x = Path_str p)
             (ordered_indices v) names) ∧
  (Exists (λ i, ¬ in_range n i) (indices_of v) →
   ∃ i, i ∈ indices_of v ∧ ¬ in_range n i ∧
        track_names_of all_track_paths v = Raise (index_exception i) ∧
        exc_class (index_exception i) = IndexError).
Proof.
  intros n. split.
  - apply track_names_of_in_range.
  - intros Hex. rewrite <- ordered_indices_Permutation in Hex.
    destruct (translate_out_of_range all_track_paths _ Hex)
      as (i & Hin & Hi & Hraise).
    exists i. rewrite ordered_indices_Permutation in Hin.
    split_and!; [done | done | exact Hraise |].
    unfold index_exception. by destruct (fits_index i).
Qed.

Lemma X1_translation_bounds_witness :
  (∃ names,
     track_names_of sample_paths (VSeq [-1; 0]) = Ok names ∧
     Forall2 (λ i x, ∃ p, sample_paths !! Z.to_nat (normal_index 4 i)
                          = Some p ∧ x = Path_str p)
             (ordered_indices (VSeq [-1; 0])) names) ∧
  (∃ i, i ∈ indices_of (VSet {[1; 4]}) ∧ ¬ in_range 4 i ∧
        track_names_of sample_paths (VSet {[1; 4]})
        = Raise (index_exception i) ∧
        exc_class (index_exception i) = IndexError).
Proof.
  split.
  - apply (proj1 (X1_translation_bounds sample_paths (VSeq [-1; 0]))).
    compute_done.
  - apply (proj2 (X1_translation_bounds sample_paths (VSet {[1; 4]}))).
    compute_done.
Defined.

(** The two messages, on the sample catalogue. *)
Example index_messages :
  track_names_of sample_paths (VSeq [0; 4]) = Raise index_error ∧
  track_names_of sample_paths (VSeq [2 ^ 63]) = Raise overflow_error ∧
  track_names_of sample_paths (VSeq [- 2 ^ 63 - 1]) = Raise overflow_error ∧
  track_names_of sample_paths (VSeq [- 2 ^ 63]) = Raise index_error.
Proof. vm_compute. done. Qed.

(** ** What the lookups return *)

Lemma map_path_to_idx_of_get (l : list Path) (p : Path) (i : Z) :
  dict_get (map_path_to_idx_of l) p = Some i →
  ∃ k, i = Z.of_nat k ∧ l !! k = Some p.
Proof.
  induction l as [| x l IH] using rev_ind; [done |].
  rewrite map_path_to_idx_of_snoc.
  destruct (decide (x = p)) as [-> | Hne].
  - rewrite dict_get_set_eq. intros [= <-]. exists (length l).
    split; [done |]. by rewrite lookup_app_r, Nat.sub_diag.
  - rewrite dict_get_set_ne by done. intros (k & -> & Hk)%IH.
    exists k. split; [done |]. by apply lookup_app_l_Some.
Qed.

Lemma map_path_to_idx_of_keys_NoDup (l : list Path) :
  NoDup (map_path_to_idx_of l).*1.
Proof.
  induction l as [| x l IH] using rev_ind; [constructor |].
  rewrite map_path_to_idx_of_snoc. by apply dict_set_NoDup.
Qed.

Lemma map_path_to_idx_of_item (l : list Path) (p : Path) (i : Z) :
  (p, i) ∈ map_path_to_idx_of l → i ∈ all_tracks_of l.
Proof.
  intros Hin.
  apply (dict_get_NoDup _ _ _ (map_path_to_idx_of_keys_NoDup l)) in Hin.
  apply map_path_to_idx_of_get in Hin as (k & -> & Hk).
  apply elem_of_all_tracks_of. apply lookup_lt_Some in Hk. lia.
Qed.

Lemma for_each_inv {A S} (P : S → Prop) (body : S → A → Result S)
    (l : list A) (s s' : S) :
  (∀ s x s', P s → body s x = Ok s' → P s') →
  P s → for_each body s l = Ok s' → P s'.
Proof.
  intros Hbody. revert s. induction l as [| x l IH]; intros s Hs; simpl.
  - by intros [= <-].
  - destruct (body s x) as [s1 | e] eqn:Hx; simpl; [| done].
    apply IH. by eapply Hbody.
Qed.

Lemma all_tracks_by_path_known (l : list Path) (q : Path) (a : gset Z) :
  all_tracks_by_path (map_path_to_idx_of l) !! q = Some a →
  a ⊆ all_tracks_of l.
Proof.
  intros Hq j Hj.
  apply (all_tracks_by_path_elem _ _ _ _ Hq) in Hj as (p & Hin & _).
  by eapply map_path_to_idx_of_item.
Qed.

Lemma apply_tag_file_known (l : list Path) (result result' : gset Z)
    (tag_file : RuleFile) :
  result ⊆ all_tracks_of l →
  apply_tag_file (all_tracks_by_path (map_path_to_idx_of l)) result tag_file
  = Ok result' →
  result' ⊆ all_tracks_of l.
Proof.
  intros Hresult. unfold apply_tag_file.
  destruct (dict_popitem _) as [[[key given] rest] | e]; simpl; [| done].
  destruct rest; [| done].
  set (atbp := all_tracks_by_path (map_path_to_idx_of l)).
  assert (∀ q a, dict_getitem atbp q = Ok a → a ⊆ all_tracks_of l) as Hknown.
  { intros q a. unfold dict_getitem.
    destruct (atbp !! q) as [a' |] eqn:Hq; [| done].
    intros [= <-]. by eapply all_tracks_by_path_known. }
  destruct (String.eqb key "all_except");
    [| destruct (String.eqb key "none_except")].
  - destruct (dict_getitem atbp (tag_file_dir tag_file)) as [a | e] eqn:Ha;
      simpl; [| done].
    apply Hknown in Ha.
    destruct given as [subpaths |]; [| intros [= <-]; set_solver].
    apply (for_each_inv (λ r, r ⊆ all_tracks_of l)); [| set_solver].
    intros r x r' Hr.
    destruct (dict_getitem atbp (joinpath (tag_file_dir tag_file) x))
      as [b | e]; simpl; [| done].
    intros [= <-]. set_solver.
  - destruct (dict_getitem atbp (tag_file_dir tag_file)) as [a | e] eqn:Ha;
      simpl; [| done].
    destruct given as [subpaths |]; [| intros [= <-]; set_solver].
    apply (for_each_inv (λ r, r ⊆ all_tracks_of l)); [| set_solver].
    intros r x r' Hr.
    destruct (dict_getitem atbp (joinpath (tag_file_dir tag_file) x))
      as [b | e] eqn:Hb; simpl; [| done].
    apply Hknown in Hb. intros [= <-]. set_solver.
  - by intros [= <-].
Qed.

(** X2.  Every index that a genre, label or playlist lookup returns is the
    index of a known track, so the value always translates to path
    strings. *)
Theorem X2_lookups_return_known_tracks (fs : FileSystem)
    (all_track_paths : list Path) (arg : string) (m : Mpd) :
  let map_path_to_idx := map_path_to_idx_of all_track_paths in
  (∀ s, (GenreAccessor_lookup map_path_to_idx arg m).1 = Ok s →
        s ⊆ all_tracks_of all_track_paths ∧
        ∃ names, track_names_of all_track_paths (VSet s) = Ok names) ∧
  (∀ s, (LabelAccessor_lookup fs map_path_to_idx arg m).1 = Ok s →
        s ⊆ all_tracks_of all_track_paths ∧
        ∃ names, track_names_of all_track_paths (VSet s) = Ok names) ∧
  (∀ v, (PlaylistAccessor_lookup map_path_to_idx arg m).1 = Ok v →
        ∃ l, v = VSeq l ∧
             Forall (λ i, i ∈ all_tracks_of all_track_paths) l ∧
             ∃ names, track_names_of all_track_paths v = Ok names).
Proof.
  intros map_path_to_idx.
  assert (∀ v, Forall (λ i, i ∈ all_tracks_of all_track_paths) (indices_of v) →
               ∃ names, track_names_of all_track_paths v = Ok names)
    as Htranslates.
  { intros v Hv.
    destruct (track_names_of_in_range all_track_paths v)
      as (names & Hnames & _); [| by exists names].
    eapply Forall_impl; [exact Hv |]. simpl. intros i.
    rewrite elem_of_all_tracks_of. unfold in_range. lia. }
  assert (∀ raw : list string,
            Forall (λ i, i ∈ all_tracks_of all_track_paths)
                   (omap (λ x, dict_get map_path_to_idx (Path_of_string x))
                         raw)) as Hraw.
  { intros raw. apply Forall_forall. intros i Hi.
    apply list_elem_of_omap in Hi as (x & _ & Hx).
    apply map_path_to_idx_of_get in Hx as (k & -> & Hk).
    apply elem_of_all_tracks_of. apply lookup_lt_Some in Hk. lia. }
  split_and!.
  - intros s. unfold GenreAccessor_lookup, Mpd_find. simpl.
    destruct (find_reply m (genre_filter arg)) as [raw |]; simpl; [| done].
    intros [= <-].
    assert (list_to_set (omap (λ x, dict_get map_path_to_idx (Path_of_string x))
                              raw) ⊆ all_tracks_of all_track_paths) as Hsub.
    { intros i Hi. apply elem_of_list_to_set in Hi.
      by apply (proj1 (Forall_forall _ _) (Hraw raw)). }
    split; [done |]. apply Htranslates. simpl.
    apply Forall_forall. intros i Hi. apply Hsub. by apply elem_of_elements.
  - intros s. unfold LabelAccessor_lookup, Mpd_config. simpl.
    destruct (music_directory m) as [root |]; simpl; [| done].
    unfold apply_tag_files.
    destruct (for_each _ (∅, false) (fs root (yml_file_name arg)))
      as [[result found] | e] eqn:Hloop; simpl; [| done].
    destruct found; [| done]. intros [= <-].
    assert (result ⊆ all_tracks_of all_track_paths) as Hsub.
    { apply (for_each_inv (λ st : gset Z * bool,
                             st.1 ⊆ all_tracks_of all_track_paths)) in Hloop;
        [done | | set_solver].
      intros [r f] tf [r' f'] Hr. simpl.
      destruct (apply_tag_file _ r tf) as [r1 | e] eqn:Htf; simpl; [| done].
      intros [= <- <-]. simpl in *. by eapply apply_tag_file_known. }
    split; [done |]. apply Htranslates. simpl.
    apply Forall_forall. intros i Hi. apply Hsub. by apply elem_of_elements.
  - intros v. unfold PlaylistAccessor_lookup, Mpd_listplaylist. simpl.
    destruct (stored m !! arg) as [raw |]; simpl; [| done].
    intros [= <-]. eexists. split; [done |]. split; [apply Hraw |].
    apply Htranslates. apply Hraw.
Qed.

Lemma X2_lookups_return_known_tracks_witness :
  ({[1; 0]} ⊆ all_tracks_of sample_paths ∧
   ∃ names, track_names_of sample_paths (VSet {[1; 0]}) = Ok names) ∧
  ({[3]} ⊆ all_tracks_of sample_paths ∧
   ∃ names, track_names_of sample_paths (VSet {[3]}) = Ok names) ∧
  (∃ l, VSeq [2; 0] = VSeq l ∧
        Forall (λ i, i ∈ all_tracks_of sample_paths) l ∧
        ∃ names, track_names_of sample_paths (VSeq [2; 0]) = Ok names).
Proof.
  pose proof (X2_lookups_return_known_tracks
                (one_rule_fs [("all_except", Some ["a"; "b"])])
                sample_paths) as H.
  split; [| split].
  - refine (proj1 (H "Rock" rock_mpd) {[1; 0]} _). vm_compute. reflexivity.
  - refine (proj1 (proj2 (H "foo" rock_mpd)) {[3]} _). vm_compute. reflexivity.
  - refine (proj2 (proj2 (H "old" rock_mpd)) (VSeq [2; 0]) _).
    vm_compute. reflexivity.
Defined.

(** ** Reading back what was synchronised *)

Lemma py_index_Ok {A} (l : list A) (i : Z) (x : A) :
  py_index l i = Ok x →
  in_range (length l) i ∧ l !! Z.to_nat (normal_index (length l) i) = Some x.
Proof.
  intros Hx. destruct (decide (in_range (length l) i)) as [Hi | Hi].
  - destruct (py_index_in_range l i Hi) as (x' & Hx' & Hok).
    rewrite Hok in Hx. by injection Hx as ->.
  - by rewrite (py_index_out_of_range l i Hi) in Hx.
Qed.

Lemma file_paths_parsed (objs : list ListallObj) (p : Path) :
  p ∈ file_paths objs → ∃ f, p = Path_of_string f.
Proof.
  unfold file_paths. intros (obj & _ & Hobj)%list_elem_of_omap.
  destruct obj as [f | d | pl]; try done. injection Hobj as <-. by exists f.
Qed.

Lemma read_back (objs : list ListallObj) (idxs : list Z)
    (names : list string) :
  NoDup (file_paths objs) →
  translate (all_track_paths_of objs) idxs = Ok names →
  omap (λ x, dict_get (map_path_to_idx_of (all_track_paths_of objs))
                      (Path_of_string x)) names
  = normal_index (length (all_track_paths_of objs)) <$> idxs.
Proof.
  intros Hnodup Hnames. apply translate_Forall2 in Hnames.
  assert (all_track_paths_of objs ≡ₚ file_paths objs) as Hperm
    by apply (merge_sort_Permutation Path_le).
  assert (NoDup (all_track_paths_of objs)) as Hatp by by rewrite Hperm.
  induction Hnames as [| i x idxs names (p & Hp & ->) Hrest IH]; [done |].
  apply py_index_Ok in Hp as [Hi Hp]. csimpl.
  destruct (file_paths_parsed objs p) as [f ->].
  { rewrite <- Hperm. by eapply list_elem_of_lookup_2. }
  rewrite Path_of_string_str.
  apply (map_path_to_idx_of_lookup _ _ _ Hatp) in Hp. rewrite Hp. simpl.
  rewrite IH. f_equal. rewrite Z2Nat.id; [done |].
  unfold in_range, normal_index in *. destruct (Z.ltb_spec i 0); lia.
Qed.

(** X3.  On a catalogue that lists each file once: after the loop body
    has synchronised a playlist, looking the playlist up (as the next cycle
    would) returns the indices that were given, in the order they were
    sent, negative ones replaced by the positions they stand for. *)
Theorem X3_sync_then_read (objs : list ListallObj) (m : Mpd) (name : string)
    (v : PlValue) :
  NoDup (file_paths objs) →
  let all_track_paths := all_track_paths_of objs in
  let map_path_to_idx := map_path_to_idx_of all_track_paths in
  Forall (in_range (length all_track_paths)) (indices_of v) →
  let '(r, m') := sync_playlist all_track_paths m (name, v) in
  r = Ok tt ∧
  (PlaylistAccessor_lookup map_path_to_idx name m').1
  = Ok (VSeq (normal_index (length all_track_paths) <$> ordered_indices v)).
Proof.
  intros Hnodup atp p2i Hrange.
  destruct (track_names_of_in_range atp v Hrange) as (names & Hnames & _).
  destruct (sync_playlist_stored atp name v names m Hnames)
    as (m' & -> & Hstored & _).
  split; [done |].
  unfold PlaylistAccessor_lookup, Mpd_listplaylist. simpl.
  rewrite Hstored. simpl. do 2 f_equal.
  by apply read_back.
Qed.

Lemma X3_sync_then_read_witness :
  NoDup (file_paths sample_listing) ∧
  let '(r, m') := sync_playlist sample_paths sample_mpd
                    ("mix", VSeq [-1; 0; 3]) in
  r = Ok tt ∧
  (PlaylistAccessor_lookup sample_map_path_to_idx "mix" m').1
  = Ok (VSeq (normal_index 4 <$> [-1; 0; 3])).
Proof.
  assert (NoDup (file_paths sample_listing)) as Hnodup by compute_done.
  split; [exact Hnodup |].
  refine (X3_sync_then_read sample_listing sample_mpd "mix"
            (VSeq [-1; 0; 3]) Hnodup _).
  compute_done.
Defined.

(** ** Memoisation and the property form *)

(** X4.  [__getitem__] memoises successes only.  A lookup never changes
    the cache entry of another name.  After a success the value is cached
    and every later lookup of the name returns it without a call, whatever
    the state of the connection.  After a failure the cache is as before,
    the name still absent from it, and the exception is never a
    [KeyError] or a bare [LookupError]. *)
Theorem X4_memoisation {V} (lookup : string → Mpd → Result V * Mpd)
    (arg : string) (cache : gmap string V) (m : Mpd) :
  let '(r, cache', m') := DbAccessor_getitem lookup arg cache m in
  (∀ k, k ≠ arg → cache' !! k = cache !! k) ∧
  (∀ v, r = Ok v →
        cache' !! arg = Some v ∧
        ∀ m'', DbAccessor_getitem lookup arg cache' m'' = (Ok v, cache', m'')) ∧
  (∀ e, r = Raise e →
        cache' = cache ∧ cache !! arg = None ∧
        exc_class e ≠ KeyError ∧ exc_class e ≠ LookupError).
Proof.
  pose proof (DbAccessor_getitem_cases lookup arg cache m) as Hcases.
  destruct (DbAccessor_getitem lookup arg cache m) as [[r cache'] m'].
  destruct Hcases as [(v & Hhit & -> & -> & ->) | (Hmiss & -> & Hr)].
  - split_and!; [done | | done].
    intros v' [= <-]. split; [done |]. intros m''.
    unfold DbAccessor_getitem. by rewrite Hhit.
  - destruct (lookup arg m).1 as [v | e]; destruct Hr as [-> ->].
    + split_and!; [| | done].
      * intros k Hk. by rewrite lookup_insert_ne.
      * intros v' [= <-]. split; [apply lookup_insert_eq |]. intros m''.
        unfold DbAccessor_getitem. by rewrite lookup_insert_eq.
    + split_and!; [done | done |].
      intros e' [= <-]. split_and!; [done | done | |];
        destruct (exc_class e) eqn:He; simpl; congruence.
Qed.

Lemma X4_memoisation_witness :
  let '(r, cache', m') :=
    DbAccessor_getitem (GenreAccessor_lookup sample_map_path_to_idx) "Rock"
                       ∅ rock_mpd in
  cache' !! "Rock" = Some {[1; 0]} ∧
  DbAccessor_getitem (GenreAccessor_lookup sample_map_path_to_idx) "Rock"
                     cache' sample_mpd
  = (Ok {[1; 0]}, cache', sample_mpd).
Proof.
  pose proof (X4_memoisation (GenreAccessor_lookup sample_map_path_to_idx)
                "Rock" ∅ rock_mpd) as H.
  destruct (DbAccessor_getitem _ "Rock" ∅ rock_mpd) as [[r cache'] m'] eqn:Hget.
  destruct H as (_ & Hok & _).
  assert (r = Ok {[1; 0]}) as Hr.
  { apply (f_equal (λ x, x.1.1)) in Hget. simpl in Hget. rewrite <- Hget.
    vm_compute. reflexivity. }
  destruct (Hok _ Hr) as [Hcached Hagain]. split; [exact Hcached |].
  apply Hagain.
Defined.

(** X5.  The property form [accessor.name] goes through the same
    [__getitem__]: it leaves the same cache and connection, returns the
    same value, and never raises a [LookupError]; what the keyed form
    reports as an [IndexError] arrives as an [AttributeError] with the same
    arguments.  On [playlist] it freezes the name like the keyed form, so a
    later assignment to the name raises the conflict error. *)
Theorem X5_property_form {V} (lookup : string → Mpd → Result V * Mpd)
    (map_path_to_idx : list (Path * Z)) (arg : string)
    (cache : gmap string V) (self : PlaylistAccessor) (m : Mpd) :
  (let '(r0, cache0, m0) := DbAccessor_getitem lookup arg cache m in
   let '(r, cache', m') := DbAccessor_getattr lookup arg cache m in
   cache' = cache0 ∧ m' = m0 ∧
   (∀ v, r = Ok v ↔ r0 = Ok v) ∧
   (∀ e, r = Raise e → is_LookupError (exc_class e) = false) ∧
   (∀ e, r0 = Raise e → exc_class e = IndexError →
         r = Raise (mkExc AttributeError (exc_args e)))) ∧
  (let '(r, self', m') :=
     PlaylistAccessor_getattr map_path_to_idx arg self m in
   self' = (PlaylistAccessor_getitem map_path_to_idx arg self m).1.2 ∧
   arg ∈ frozen_keys self' ∧
   ∀ v, PlaylistAccessor_setitem arg v self' = (Raise (conflict arg), self')).
Proof.
  split.
  - unfold DbAccessor_getattr.
    destruct (DbAccessor_getitem lookup arg cache m) as [[r0 cache0] m0].
    split_and!; try done.
    + intros v. destruct r0; simpl; [done |]. split; intros [=].
    + intros e. destruct r0 as [v | e0]; simpl; [done |].
      intros [= <-]. destruct (exc_class e0) eqn:He; simpl; by rewrite ?He.
    + intros e -> He. simpl. by rewrite He.
  - unfold PlaylistAccessor_getattr.
    pose proof (getitem_frozen map_path_to_idx arg self m) as Hfrozen.
    destruct (PlaylistAccessor_getitem map_path_to_idx arg self m)
      as [[r self'] m']. simpl in *.
    assert (arg ∈ frozen_keys self') as Hin by (rewrite Hfrozen; set_solver).
    split_and!; [done | done |]. intros v. by apply setitem_frozen.
Qed.

Lemma X5_property_form_witness :
  (DbAccessor_getattr (LabelAccessor_lookup (one_rule_fs [])
                         sample_map_path_to_idx) "bar" ∅ sample_mpd).1.1
  = Raise (mkExc AttributeError (exc_args (label_not_found "bar"))).
Proof.
  pose proof (proj1 (X5_property_form
                       (LabelAccessor_lookup (one_rule_fs [])
                          sample_map_path_to_idx)
                       sample_map_path_to_idx "bar" ∅
                       (mkPlaylistAccessor ∅ ∅ []) sample_mpd)) as H.
  destruct (DbAccessor_getitem _ "bar" ∅ sample_mpd) as [[r0 cache0] m0] eqn:H0.
  destruct (DbAccessor_getattr _ "bar" ∅ sample_mpd) as [[r cache'] m'].
  destruct H as (_ & _ & _ & _ & Hraise). simpl.
  apply (Hraise (label_not_found "bar")); [| reflexivity].
  apply (f_equal (λ x, x.1.1)) in H0. simpl in H0. rewrite <- H0.
  vm_compute. reflexivity.
Defined.

(** ** What a cycle generates *)

Section GeneratedFacts.
Variable fs : FileSystem.
Variable map_path_to_idx : list (Path * Z).
Local Abbreviation step := (cycle_step fs map_path_to_idx).
Local Abbreviation run := (cycle_run fs map_path_to_idx).

(** The cache of [playlist] holds every generated playlist. *)
Lemma step_generated_cached c op :
  (∀ name v, dict_get (generated_playlists (playlist c)) name = Some v →
             playlist_cache (playlist c) !! name = Some v) →
  ∀ name v,
    dict_get (generated_playlists (playlist (step c op).2)) name = Some v →
    playlist_cache (playlist (step c op).2) !! name = Some v.
Proof.
  intros Hinv. destruct op as [n | n | n | n w]; simpl.
  - by destruct (DbAccessor_getitem _ _ _ _) as [[r cache'] m'].
  - by destruct (DbAccessor_getitem _ _ _ _) as [[r cache'] m'].
  - unfold PlaylistAccessor_getitem.
    pose proof (DbAccessor_getitem_cases
                  (PlaylistAccessor_lookup map_path_to_idx) n
                  (playlist_cache (playlist c)) (mpd c)) as Hcases.
    destruct (DbAccessor_getitem _ n _ (mpd c)) as [[r cache'] m'].
    simpl. intros name v Hgen. specialize (Hinv name v Hgen).
    destruct Hcases as [(v' & _ & _ & -> & _) | (Hmiss & _ & Hr)]; [done |].
    destruct (PlaylistAccessor_lookup map_path_to_idx n (mpd c)).1;
      destruct Hr as [_ ->]; [| done].
    rewrite lookup_insert_ne; [done |]. intros ->. congruence.
  - unfold PlaylistAccessor_setitem. case_decide; simpl; [done |].
    intros name v. destruct (decide (n = name)) as [<- | Hne].
    + rewrite dict_get_set_eq, lookup_insert_eq. done.
    + rewrite dict_get_set_ne, lookup_insert_ne by done. apply Hinv.
Qed.

Lemma run_generated_cached m0 ops name v :
  dict_get (generated_playlists (playlist (run (fresh_cycle m0) ops))) name
  = Some v →
  playlist_cache (playlist (run (fresh_cycle m0) ops)) !! name = Some v.
Proof.
  revert name v. induction ops as [| op ops IH] using rev_ind; [done |].
  rewrite run_snoc. by apply step_generated_cached.
Qed.

(** Only assignments add names to the generated playlists. *)
Lemma step_generated_keys c op name :
  name ∈ (generated_playlists (playlist (step c op).2)).*1 →
  name ∈ (generated_playlists (playlist c)).*1 ∨ writes name [op] = true.
Proof.
  destruct op as [n | n | n | n w]; simpl.
  - destruct (DbAccessor_getitem _ _ _ _) as [[r cache'] m']. by left.
  - destruct (DbAccessor_getitem _ _ _ _) as [[r cache'] m']. by left.
  - pose proof (getitem_generated map_path_to_idx n (playlist c) (mpd c)).
    destruct (PlaylistAccessor_getitem _ _ _ _) as [[r self'] m'].
    simpl in *. left. congruence.
  - unfold PlaylistAccessor_setitem. case_decide; simpl; [by left |].
    rewrite dict_set_keys. case_decide; [by left |].
    rewrite elem_of_app, list_elem_of_singleton. intros [? | ->]; [by left |].
    right. by rewrite bool_decide_eq_true_2.
Qed.

Lemma writes_app name ops1 ops2 :
  writes name (ops1 ++ ops2) = writes name ops1 || writes name ops2.
Proof. unfold writes. apply existsb_app. Qed.

Lemma run_generated_keys m0 ops name :
  name ∈ (generated_playlists (playlist (run (fresh_cycle m0) ops))).*1 →
  writes name ops = true.
Proof.
  induction ops as [| op ops IH] using rev_ind.
  - by intros ?%elem_of_nil.
  - rewrite run_snoc, writes_app.
    intros [Hin | Hop]%step_generated_keys; apply orb_true_iff; auto.
Qed.

Lemma mutations_app calls1 calls2 :
  mutations (calls1 ++ calls2) = mutations calls1 ++ mutations calls2.
Proof. unfold mutations. by rewrite map_app, concat_app. Qed.

(** No operation of a script sends a command list. *)
Lemma step_no_mutation c op :
  mutations (log (mpd (step c op).2)) = mutations (log (mpd c)).
Proof.
  assert (∀ call m, (∀ cmds, call ≠ call_command_list cmds) →
                    mutations (log (logged call m)) = mutations (log m))
    as Hlogged.
  { intros call m Hcall. simpl. rewrite mutations_app.
    destruct call; simpl; try by rewrite app_nil_r. by destruct (Hcall cmds). }
  destruct op as [n | n | n | n w]; simpl.
  - pose proof (DbAccessor_getitem_cases
                  (GenreAccessor_lookup map_path_to_idx) n (genre c) (mpd c))
      as Hcases.
    destruct (DbAccessor_getitem _ n (genre c) (mpd c)) as [[r cache'] m'].
    destruct Hcases as [(v & _ & _ & _ & ->) | (_ & -> & _)]; [done |].
    by apply Hlogged.
  - pose proof (DbAccessor_getitem_cases
                  (LabelAccessor_lookup fs map_path_to_idx) n (label c) (mpd c))
      as Hcases.
    destruct (DbAccessor_getitem _ n (label c) (mpd c)) as [[r cache'] m'].
    destruct Hcases as [(v & _ & _ & _ & ->) | (_ & -> & _)]; [done |].
    by apply Hlogged.
  - unfold PlaylistAccessor_getitem.
    pose proof (DbAccessor_getitem_cases
                  (PlaylistAccessor_lookup map_path_to_idx) n
                  (playlist_cache (playlist c)) (mpd c)) as Hcases.
    destruct (DbAccessor_getitem _ n _ (mpd c)) as [[r cache'] m'].
    destruct Hcases as [(v & _ & _ & _ & ->) | (_ & -> & _)]; [done |].
    by apply Hlogged.
  - by destruct (PlaylistAccessor_setitem n w (playlist c)) as [r self'].
Qed.

Lemma run_no_mutation c ops :
  mutations (log (mpd (run c ops))) = mutations (log (mpd c)).
Proof.
  induction ops as [| op ops IH] using rev_ind; [done |].
  by rewrite run_snoc, step_no_mutation.
Qed.

Lemma execfile_trace_run s c :
  (execfile fs map_path_to_idx s c).2
  = run c (execfile_trace fs map_path_to_idx s c).
Proof.
  revert c. induction s as [| e | op k IH]; intros c; simpl; [done | done |].
  destruct (step c op) as [o c'] eqn:Hstep.
  by rewrite IH, run_cons, Hstep.
Qed.
End GeneratedFacts.

(** X6.  In a cycle, whatever the script did before: a name that has a
    generated playlist is read back as exactly that playlist, without a
    call on the connection. *)
Theorem X6_generated_is_cached (fs : FileSystem)
    (map_path_to_idx : list (Path * Z)) (m0 : Mpd) (ops : list ScriptOp)
    (name : string) (v : PlValue) :
  let c := cycle_run fs map_path_to_idx (fresh_cycle m0) ops in
  dict_get (generated_playlists (playlist c)) name = Some v →
  let '(o, c') := cycle_step fs map_path_to_idx c (playlist_get name) in
  o = returned v ∧ log (mpd c') = log (mpd c) ∧
  generated_playlists (playlist c') = generated_playlists (playlist c).
Proof.
  intros c Hgen.
  apply run_generated_cached in Hgen. simpl.
  by rewrite (getitem_cached _ _ _ _ _ Hgen).
Qed.

Lemma X6_generated_is_cached_witness :
  let c := cycle_run (one_rule_fs []) sample_map_path_to_idx
             (fresh_cycle sample_mpd)
             [playlist_set "old" (VSet {[1]}); playlist_set "old" (VSeq [3])] in
  let '(o, c') := cycle_step (one_rule_fs []) sample_map_path_to_idx c
                    (playlist_get "old") in
  o = returned (VSeq [3]) ∧ log (mpd c') = log (mpd c) ∧
  generated_playlists (playlist c') = generated_playlists (playlist c).
Proof.
  exact (X6_generated_is_cached (one_rule_fs []) sample_map_path_to_idx
           sample_mpd
           [playlist_set "old" (VSet {[1]}); playlist_set "old" (VSeq [3])]
           "old" (VSeq [3]) eq_refl).
Defined.

(** ** What the synchronisation leaves on the server *)

Lemma sync_playlists_post (all_track_paths : list Path)
    (generated : list (string * PlValue)) :
  NoDup generated.*1 →
  ∀ m,
    (sync_playlists all_track_paths m generated).1 = Ok tt →
    ∀ name v,
      (name, v) ∈ generated →
      ∃ names,
        track_names_of all_track_paths v = Ok names ∧
        stored (sync_playlists all_track_paths m generated).2 !! name
        = Some names.
Proof.
  induction generated as [| [n w] rest IH]; csimpl.
  - intros _ m _ name v Hin. by apply elem_of_nil in Hin.
  - rewrite NoDup_cons. intros [Hn Hrest] m.
    destruct (track_names_of all_track_paths w) as [names | e] eqn:Hnames.
    + destruct (sync_playlist_stored all_track_paths n w names m Hnames)
        as (m' & -> & Hstored & _).
      intros Hok name v [[= -> ->] | Hin]%elem_of_cons.
      * exists names. split; [done |]. by rewrite sync_playlists_frame.
      * by apply IH.
    + by rewrite (translate_raise_sync _ _ _ _ _ Hnames).
Qed.

(** X7.  The synchronisation loop over generated playlists: playlists
    that are not among them keep their stored contents, whether the loop
    completes or raises; and when the loop completes, each generated
    playlist is stored with exactly the path strings its value translates
    to. *)
Theorem X7_sync_postcondition (all_track_paths : list Path) (m : Mpd)
    (generated : list (string * PlValue)) :
  NoDup generated.*1 →
  let '(r, m') := sync_playlists all_track_paths m generated in
  (∀ k, k ∉ generated.*1 → stored m' !! k = stored m !! k) ∧
  (r = Ok tt →
   ∀ name v, (name, v) ∈ generated →
     ∃ names, track_names_of all_track_paths v = Ok names ∧
              stored m' !! name = Some names).
Proof.
  intros Hnodup.
  pose proof (sync_playlists_post all_track_paths generated Hnodup m) as Hpost.
  pose proof (λ k, sync_playlists_frame all_track_paths generated m k)
    as Hframe.
  destruct (sync_playlists all_track_paths m generated) as [r m'].
  simpl in *. split; [done |].
  intros ->. by apply Hpost.
Qed.

Lemma X7_sync_postcondition_witness :
  NoDup [("new", VSet ∅); ("old", VSeq [3; 0])].*1 ∧
  let '(r, m') := sync_playlists sample_paths sample_mpd
                    [("new", VSet ∅); ("old", VSeq [3; 0])] in
  (∀ k, k ∉ [("new", VSet ∅); ("old", VSeq [3; 0])].*1 →
        stored m' !! k = stored sample_mpd !! k) ∧
  (r = Ok tt →
   ∀ name v, (name, v) ∈ [("new", VSet ∅); ("old", VSeq [3; 0])] →
     ∃ names, track_names_of sample_paths v = Ok names ∧
              stored m' !! name = Some names).
Proof.
  assert (NoDup [("new", VSet ∅); ("old", VSeq [3; 0])].*1) as Hnodup
    by compute_done.
  split; [exact Hnodup |].
  exact (X7_sync_postcondition sample_paths sample_mpd _ Hnodup).
Defined.

(** X8.  One pass of the loop body either raises before any call, or
    queries the playlist and then sends at most one command list, all of
    whose commands act on that playlist. *)
Theorem X8_single_batch (all_track_paths : list Path) (m : Mpd)
    (name : string) (v : PlValue) :
  let '(r, m') := sync_playlist all_track_paths m (name, v) in
  match track_names_of all_track_paths v with
  | Raise e => r = Raise e ∧ m' = m
  | Ok names =>
      r = Ok tt ∧
      ∃ batches,
        log m' = log m ++ call_listplaylist name :: batches ∧
        (length batches ≤ 1)%nat ∧
        Forall (λ call, ∃ cmds, call = call_command_list cmds ∧
                                Forall (λ c, command_name c = name) cmds)
               batches
  end.
Proof.
  destruct (track_names_of all_track_paths v) as [names | e] eqn:Hnames.
  - destruct (decide (names = default [] (stored m !! name))) as [Heq | Hne].
    + destruct (stored m !! name) as [old |] eqn:Hold; simpl in Heq.
      * subst old. rewrite (sync_playlist_fixed _ _ _ _ _ Hnames Hold).
        split; [done |]. exists [].
        split_and!; [done | simpl; lia | constructor].
      * subst names. rewrite (sync_playlist_create _ _ _ _ Hnames Hold).
        split; [done |]. eexists [_]. simpl.
        split_and!; [by rewrite <- app_assoc | lia |].
        constructor; [| done]. eexists. split; [done |].
        by repeat constructor.
    + rewrite (sync_playlist_send _ _ _ _ _ Hnames Hne).
      split; [done |]. eexists [_]. simpl.
      split_and!; [by rewrite <- app_assoc | lia |].
      constructor; [| done]. eexists. split; [done |].
      apply Forall_app. split.
      * destruct (stored m !! name); by repeat constructor.
      * by apply Forall_fmap, Forall_true.
  - by rewrite (translate_raise_sync _ _ _ _ _ Hnames).
Qed.

(** ** A whole cycle *)

(** X9.  When the rule script ends with an exception, [generate_all]
    raises it without synchronising anything: the stored playlists are as
    before and no command list has been sent. *)
Theorem X9_script_error_aborts (fs : FileSystem)
    (exec_file : gset Z → Script) (m : Mpd) (e : PyExc) :
  let all_track_paths := all_track_paths_of (database m) in
  let map_path_to_idx := map_path_to_idx_of all_track_paths in
  (execfile fs map_path_to_idx (exec_file (all_tracks_of all_track_paths))
            (fresh_cycle (logged call_listall m))).1 = Raise e →
  let '(r, m') := generate_all fs exec_file m in
  r = Raise e ∧ stored m' = stored m ∧ mutations (log m') = mutations (log m).
Proof.
  intros atp p2i Hraise. unfold generate_all, Mpd_listall.
  fold atp. fold p2i.
  pose proof (execfile_trace_run fs p2i (exec_file (all_tracks_of atp))
                (fresh_cycle (logged call_listall m))) as Hrun.
  destruct (execfile fs p2i (exec_file (all_tracks_of atp))
              (fresh_cycle (logged call_listall m))) as [r c].
  simpl in Hraise, Hrun. subst r c. split; [done |].
  destruct (fresh_inv fs p2i (logged call_listall m)
              (execfile_trace fs p2i (exec_file (all_tracks_of atp))
                 (fresh_cycle (logged call_listall m))))
    as (_ & _ & Hstored & _).
  split; [exact Hstored |].
  rewrite run_no_mutation. simpl. rewrite mutations_app. simpl.
  by rewrite app_nil_r.
Qed.

Lemma X9_script_error_aborts_witness :
  let '(r, m') := generate_all (one_rule_fs []) failing_script sample_mpd in
  r = Raise (label_not_found "bar") ∧ stored m' = stored sample_mpd ∧
  mutations (log m') = mutations (log sample_mpd).
Proof.
  refine (X9_script_error_aborts (one_rule_fs []) failing_script sample_mpd
            (label_not_found "bar") _).
  vm_compute. reflexivity.
Defined.

(** X10.  [generate_all] never changes a stored playlist that the rule
    script did not assign, whether the cycle completes or raises. *)
Theorem X10_unassigned_playlists_untouched (fs : FileSystem)
    (exec_file : gset Z → Script) (m : Mpd) (name : string) :
  let all_track_paths := all_track_paths_of (database m) in
  let map_path_to_idx := map_path_to_idx_of all_track_paths in
  writes name
    (execfile_trace fs map_path_to_idx
       (exec_file (all_tracks_of all_track_paths))
       (fresh_cycle (logged call_listall m))) = false →
  stored (generate_all fs exec_file m).2 !! name = stored m !! name.
Proof.
  intros atp p2i Hwrites. unfold generate_all, Mpd_listall.
  fold atp. fold p2i.
  pose proof (execfile_trace_run fs p2i (exec_file (all_tracks_of atp))
                (fresh_cycle (logged call_listall m))) as Hrun.
  set (ops := execfile_trace fs p2i (exec_file (all_tracks_of atp))
                (fresh_cycle (logged call_listall m))) in *.
  destruct (fresh_inv fs p2i (logged call_listall m) ops)
    as (_ & _ & Hstored & _).
  destruct (execfile fs p2i (exec_file (all_tracks_of atp))
              (fresh_cycle (logged call_listall m))) as [r c].
  simpl in Hrun. subst c.
  destruct r as [[] | e]; simpl.
  - rewrite sync_playlists_frame; [by rewrite Hstored |].
    intros Hin%run_generated_keys. congruence.
  - by rewrite Hstored.
Qed.

Lemma X10_unassigned_playlists_untouched_witness :
  stored (generate_all (one_rule_fs []) everything_script sample_mpd).2 !! "old"
  = stored sample_mpd !! "old".
Proof.
  exact (X10_unassigned_playlists_untouched (one_rule_fs [])
           everything_script sample_mpd "old" eq_refl).
Defined.

(** ** The shape of the index of tracks by path *)

Lemma elem_of_parents (p q : Path) :
  q ∈ parents p ↔
  ∃ k, ((if is_absolute p then 1 else 0) ≤ k < length p)%nat ∧ q = take k p.
Proof.
  unfold parents. rewrite list_elem_of_In, in_map_iff.
  setoid_rewrite <- in_rev. setoid_rewrite in_seq.
  split; intros (k & H1 & H2); exists k.
  - split; [lia | done].
  - split; [done | lia].
Qed.

Lemma relative_ancestors (p q : Path) :
  is_absolute p = false → q ∈ p :: parents p ↔ q `prefix_of` p.
Proof.
  intros Hrel. rewrite elem_of_cons, elem_of_parents, Hrel. split.
  - intros [-> | (k & _ & ->)]; [done |]. apply prefix_take.
  - intros [rest ->].
    destruct rest as [| c rest]; [left; by rewrite app_nil_r |].
    right. exists (length q). rewrite length_app. simpl.
    split; [lia |]. by rewrite take_app_length.
Qed.

Lemma relative_items (paths : list Path) (p : Path) (i : Z) :
  relative paths → (p, i) ∈ map_path_to_idx_of paths → is_absolute p = false.
Proof.
  intros Hrel Hin.
  apply (dict_get_NoDup _ _ _ (map_path_to_idx_of_keys_NoDup paths)) in Hin.
  apply map_path_to_idx_of_get in Hin as (k & _ & Hk).
  apply list_elem_of_lookup_2 in Hk.
  by apply (proj1 (Forall_forall _ _) Hrel).
Qed.

(** Entries are never empty, and grow towards the root. *)
Lemma index_monotone (paths : list Path) (q q' : Path) (b : gset Z) :
  relative paths → q' `prefix_of` q →
  all_tracks_by_path (map_path_to_idx_of paths) !! q = Some b →
  ∃ a, all_tracks_by_path (map_path_to_idx_of paths) !! q' = Some a ∧
       b ⊆ a ∧ b ≠ ∅.
Proof.
  intros Hrel Hprefix Hq.
  assert (∀ p i, (p, i) ∈ map_path_to_idx_of paths →
                 q ∈ p :: parents p → q' ∈ p :: parents p) as Hup.
  { intros p i Hin Hqp. pose proof (relative_items _ _ _ Hrel Hin) as Hp.
    apply (relative_ancestors _ _ Hp). apply (relative_ancestors _ _ Hp) in Hqp.
    by etrans. }
  assert (has_track (map_path_to_idx_of paths) q) as Htrack.
  { apply all_tracks_by_path_is_Some. by eexists. }
  apply Exists_exists in Htrack as ([p i] & Hin & Hqp). simpl in Hqp.
  destruct (proj2 (all_tracks_by_path_is_Some (map_path_to_idx_of paths) q'))
    as [a Ha].
  { apply Exists_exists. exists (p, i). split; [done |]. by eapply Hup. }
  exists a. split_and!; [done | |].
  - intros j Hj.
    apply (all_tracks_by_path_elem _ _ _ _ Hq) in Hj as (p' & Hin' & Hqp').
    apply (all_tracks_by_path_elem _ _ _ _ Ha). exists p'.
    split; [done |]. by eapply Hup.
  - intros ->.
    assert (i ∈ (∅ : gset Z)) as Hi; [| set_solver].
    apply (all_tracks_by_path_elem _ _ _ _ Hq). by exists p.
Qed.

(** X12.  For a catalogue of relative paths, each listed once: the entry
    of [Path('.')] holds every track; the entry of a track's own path holds
    its index; and when a path has an entry, so has every prefix of it, the
    entry of the prefix containing the entry of the path, which is not
    empty. *)
Theorem X12_index_shape (all_track_paths : list Path) :
  NoDup all_track_paths → relative all_track_paths →
  let index := all_tracks_by_path (map_path_to_idx_of all_track_paths) in
  (all_track_paths ≠ [] → index !! [] = Some (all_tracks_of all_track_paths)) ∧
  (∀ i p, all_track_paths !! i = Some p →
          ∃ a, index !! p = Some a ∧ Z.of_nat i ∈ a) ∧
  (∀ q q' b, q' `prefix_of` q → index !! q = Some b →
             ∃ a, index !! q' = Some a ∧ b ⊆ a ∧ b ≠ ∅).
Proof.
  intros Hnodup Hrel index.
  assert (∀ i p, all_track_paths !! i = Some p →
                 ∃ a, index !! p = Some a ∧ Z.of_nat i ∈ a) as Hown.
  { intros i p Hi.
    assert ((p, Z.of_nat i) ∈ map_path_to_idx_of all_track_paths) as Hin.
    { apply dict_get_Some. by apply map_path_to_idx_of_lookup. }
    destruct (proj2 (all_tracks_by_path_is_Some
                       (map_path_to_idx_of all_track_paths) p)) as [a Ha].
    { apply Exists_exists. exists (p, Z.of_nat i). split; [done | left]. }
    exists a. split; [done |].
    apply (all_tracks_by_path_elem _ _ _ _ Ha). exists p. split; [done | left]. }
  split_and!; [| done |].
  - intros Hne.
    assert (∃ p0, all_track_paths !! 0%nat = Some p0) as [p0 H0].
    { clear -Hne. destruct all_track_paths; [done | by eexists]. }
    destruct (Hown _ _ H0) as (a0 & Ha0 & _).
    destruct (index_monotone all_track_paths p0 [] a0 Hrel (prefix_nil p0) Ha0)
      as (a & Ha & _).
    replace (all_tracks_of all_track_paths) with a; [exact Ha |].
    apply set_eq. intros j.
    rewrite (all_tracks_by_path_elem _ _ _ _ Ha). split.
    + intros (p & Hin & _). by eapply map_path_to_idx_of_item.
    + intros Hj. apply elem_of_all_tracks_of in Hj.
      destruct (lookup_lt_is_Some_2 all_track_paths (Z.to_nat j)) as [p Hp];
        [lia |].
      exists p. split.
      * apply dict_get_Some.
        replace j with (Z.of_nat (Z.to_nat j)) by lia.
        by apply map_path_to_idx_of_lookup.
      * apply relative_ancestors; [| apply prefix_nil].
        apply list_elem_of_lookup_2 in Hp.
        by apply (proj1 (Forall_forall _ _) Hrel).
  - intros q q' b. by apply index_monotone.
Qed.

Lemma X12_index_shape_witness :
  NoDup sample_paths ∧ relative sample_paths ∧
  all_tracks_by_path sample_map_path_to_idx !! []
  = Some (all_tracks_of sample_paths).
Proof.
  assert (NoDup sample_paths) as Hnodup by compute_done.
  assert (relative sample_paths) as Hrel by compute_done.
  split_and!; [done | done |].
  apply (proj1 (X12_index_shape sample_paths Hnodup Hrel)).
  compute_done.
Defined.

(** ** Rule files: unrecognised keys, and their order *)

Lemma apply_tag_file_unrecognised (atbp : gmap Path (gset Z))
    (result : gset Z) (tag_file : RuleFile) :
  unrecognised_only tag_file = true →
  apply_tag_file atbp result tag_file = Ok result.
Proof.
  destruct tag_file as [d [| [key given] [| kv content]]]; try done.
  unfold unrecognised_only, recognised, apply_tag_file. simpl.
  intros [H1 H2]%negb_true_iff%orb_false_iff. by rewrite H1, H2.
Qed.

(** X11.  When every rule file found for a label has a single key that is
    neither [all_except] nor [none_except], the label resolves to the empty
    set: the files count as found, nothing is looked up in the index, and
    no error is raised. *)
Theorem X11_unrecognised_key (fs : FileSystem)
    (map_path_to_idx : list (Path * Z)) (arg root : string) (m : Mpd) :
  music_directory m = Some root →
  fs root (yml_file_name arg) ≠ [] →
  Forall (λ tf, unrecognised_only tf = true) (fs root (yml_file_name arg)) →
  (LabelAccessor_lookup fs map_path_to_idx arg m).1 = Ok ∅.
Proof.
  intros Hroot Hne Hall.
  rewrite (LabelAccessor_lookup_root fs _ _ _ _ Hroot).
  unfold apply_tag_files. cbn [fst].
  assert (∀ found,
            for_each (λ '(result, _) tag_file,
                        result' ← apply_tag_file
                                    (all_tracks_by_path map_path_to_idx)
                                    result tag_file;
                        Ok (result', true))
                     (∅, found) (fs root (yml_file_name arg))
            = Ok (∅, match fs root (yml_file_name arg) with
                     | [] => found
                     | _ => true
                     end)) as Hloop.
  { induction Hall as [| tf tfs Htf Htfs IH]; intros found; [done |].
    cbn [for_each]. rewrite (apply_tag_file_unrecognised _ _ _ Htf). simpl.
    destruct tfs as [| tf' tfs]; [done |].
    rewrite IH by done. done. }
  rewrite Hloop. simpl.
  by destruct (fs root (yml_file_name arg)).
Qed.

Lemma X11_unrecognised_key_witness :
  (LabelAccessor_lookup (one_rule_fs [("all_but", Some ["a"])])
     sample_map_path_to_idx "foo" sample_mpd).1 = Ok ∅.
Proof.
  apply (X11_unrecognised_key (one_rule_fs [("all_but", Some ["a"])])
           sample_map_path_to_idx "foo" "/music" sample_mpd eq_refl).
  - compute_done.
  - compute_done.
Defined.

(** X13.  The result depends on the order in which the rule files are
    found.  On a catalogue of relative paths, take a rule file
    [all_except: null] in a directory and a rule file [none_except: null]
    in a path below it that holds a track: found in this order they give
    the directory's tracks without those below the path, found in the
    other order they give all the directory's tracks, and the two results
    differ. *)
Theorem X13_rule_order_matters (fs1 fs2 : FileSystem)
    (all_track_paths : list Path) (arg root : string) (m : Mpd)
    (d d2 : Path) :
  let map_path_to_idx := map_path_to_idx_of all_track_paths in
  relative all_track_paths →
  music_directory m = Some root →
  d `prefix_of` d2 →
  has_track map_path_to_idx d2 →
  fs1 root (yml_file_name arg)
    = [mkRuleFile d [("all_except", None)];
       mkRuleFile d2 [("none_except", None)]] →
  fs2 root (yml_file_name arg)
    = [mkRuleFile d2 [("none_except", None)];
       mkRuleFile d [("all_except", None)]] →
  ∃ a b,
    all_tracks_by_path map_path_to_idx !! d = Some a ∧
    all_tracks_by_path map_path_to_idx !! d2 = Some b ∧
    (LabelAccessor_lookup fs1 map_path_to_idx arg m).1 = Ok (a ∖ b) ∧
    (LabelAccessor_lookup fs2 map_path_to_idx arg m).1 = Ok a ∧
    a ∖ b ≠ a.
Proof.
  intros p2i Hrel Hroot Hprefix Htrack Hfs1 Hfs2. subst p2i.
  apply all_tracks_by_path_is_Some in Htrack as [b Hb].
  destruct (index_monotone all_track_paths d2 d b Hrel Hprefix Hb)
    as (a & Ha & Hsub & Hne).
  exists a, b. split_and!; [done | done | | |].
  - rewrite (LabelAccessor_lookup_root fs1 _ _ _ _ Hroot), Hfs1.
    unfold apply_tag_files, apply_tag_file. simpl.
    rewrite (dict_getitem_Some _ _ _ Ha). simpl.
    rewrite (dict_getitem_Some _ _ _ Hb). simpl.
    f_equal. set_solver.
  - rewrite (LabelAccessor_lookup_root fs2 _ _ _ _ Hroot), Hfs2.
    unfold apply_tag_files, apply_tag_file. simpl.
    rewrite (dict_getitem_Some _ _ _ Hb). simpl.
    rewrite (dict_getitem_Some _ _ _ Ha). simpl.
    f_equal. set_solver.
  - intros Heq. apply Hne. apply set_eq. intros j. split; [| set_solver].
    intros Hj. assert (j ∈ a ∖ b) as Hj' by (rewrite Heq; set_solver).
    set_solver.
Qed.

Lemma X13_rule_order_matters_witness :
  ∃ a b,
    all_tracks_by_path sample_map_path_to_idx !! [] = Some a ∧
    all_tracks_by_path sample_map_path_to_idx !! ["a"] = Some b ∧
    (LabelAccessor_lookup
       (rules_fs [mkRuleFile [] [("all_except", None)];
                  mkRuleFile ["a"] [("none_except", None)]])
       sample_map_path_to_idx "foo" sample_mpd).1 = Ok (a ∖ b) ∧
    (LabelAccessor_lookup
       (rules_fs [mkRuleFile ["a"] [("none_except", None)];
                  mkRuleFile [] [("all_except", None)]])
       sample_map_path_to_idx "foo" sample_mpd).1 = Ok a ∧
    a ∖ b ≠ a.
Proof.
  refine (X13_rule_order_matters _ _ sample_paths "foo" "/music" sample_mpd
            [] ["a"] _ eq_refl _ _ eq_refl eq_refl).
  - compute_done.
  - apply prefix_nil.
  - compute_done.
Defined.

(** ** Reading stored playlists and genres *)

Lemma translate_cons (all_track_paths : list Path) (i : Z) (idxs : list Z) :
  translate all_track_paths (i :: idxs)
  = (p ← py_index all_track_paths i;
     names ← translate all_track_paths idxs;
     Ok (Path_str p :: names)).
Proof.
  unfold translate. simpl.
  destruct (py_index all_track_paths i); simpl; [| done].
  by destruct (mapM _ idxs).
Qed.

Lemma omap_known (all_track_paths : list Path) (raw : list string) :
  NoDup all_track_paths →
  translate all_track_paths
    (omap (λ x, dict_get (map_path_to_idx_of all_track_paths)
                         (Path_of_string x)) raw)
  = Ok (Path_str <$>
          filter (λ p, p ∈ all_track_paths) (Path_of_string <$> raw)).
Proof.
  intros Hnodup. induction raw as [| x raw IH]; [done |].
  cbn [omap list_omap fmap list_fmap].
  destruct (dict_get (map_path_to_idx_of all_track_paths) (Path_of_string x))
    as [i |] eqn:Hx.
  - apply map_path_to_idx_of_get in Hx as (k & -> & Hk).
    rewrite filter_cons_True by by eapply list_elem_of_lookup_2.
    rewrite translate_cons, (py_index_nonneg _ _ _ Hk). simpl.
    change (list_omap ?f ?l) with (omap f l).
    change (list_fmap _ _ ?f ?l) with (f <$> l) in *.
    by rewrite IH.
  - apply dict_get_None in Hx. rewrite map_path_to_idx_of_keys in Hx by done.
    rewrite filter_cons_False by done.
    change (list_omap ?f ?l) with (omap f l).
    change (list_fmap _ _ ?f ?l) with (f <$> l) in *.
    exact IH.
Qed.

(** X14.  On a catalogue that lists each file once, the value read from
    a stored playlist translates back to the stored entries in their
    order, each as the string of its parsed path, without the entries that
    are not known tracks. *)
Theorem X14_read_then_translate (all_track_paths : list Path) (m : Mpd)
    (name : string) (raw : list string) :
  NoDup all_track_paths →
  stored m !! name = Some raw →
  ∃ v,
    (PlaylistAccessor_lookup (map_path_to_idx_of all_track_paths) name m).1
    = Ok v ∧
    track_names_of all_track_paths v
    = Ok (Path_str <$>
            filter (λ p, p ∈ all_track_paths) (Path_of_string <$> raw)).
Proof.
  intros Hnodup Hraw. unfold PlaylistAccessor_lookup, Mpd_listplaylist.
  rewrite Hraw. simpl. eexists. split; [done |].
  by apply omap_known.
Qed.

Lemma X14_read_then_translate_witness :
  ∃ v,
    (PlaylistAccessor_lookup sample_map_path_to_idx "old" rock_mpd).1 = Ok v ∧
    track_names_of sample_paths v
    = Ok (Path_str <$>
            filter (λ p, p ∈ sample_paths)
                   (Path_of_string <$> ["b/3.mp3"; "gone.mp3"; "a/1.mp3"])).
Proof.
  refine (X14_read_then_translate sample_paths rock_mpd "old" _ _ eq_refl).
  compute_done.
Defined.

(** X15.  On a catalogue that lists each file once, a genre resolves to
    exactly the tracks whose paths are among the files the server found:
    a found file that is not a known track adds nothing. *)
Theorem X15_genre_members (all_track_paths : list Path) (m : Mpd)
    (arg : string) (raw : list string) :
  NoDup all_track_paths →
  find_reply m (genre_filter arg) = Some raw →
  ∃ s,
    (GenreAccessor_lookup (map_path_to_idx_of all_track_paths) arg m).1 = Ok s ∧
    (∀ i p, all_track_paths !! i = Some p →
            Z.of_nat i ∈ s ↔ p ∈ Path_of_string <$> raw) ∧
    s ⊆ all_tracks_of all_track_paths.
Proof.
  intros Hnodup Hraw. unfold GenreAccessor_lookup, Mpd_find. simpl.
  rewrite Hraw. simpl. eexists. split; [done |]. split.
  - intros i p Hi.
    rewrite elem_of_list_to_set, list_elem_of_omap, list_elem_of_fmap.
    split.
    + intros (x & Hx & Hget). exists x. split; [| done].
      apply (map_path_to_idx_of_lookup _ _ _ Hnodup) in Hget.
      congruence.
    + intros (x & -> & Hx). exists x. split; [done |].
      by apply map_path_to_idx_of_lookup.
  - intros j. rewrite elem_of_list_to_set, list_elem_of_omap.
    intros (x & _ & Hget).
    apply map_path_to_idx_of_get in Hget as (k & -> & Hk).
    apply elem_of_all_tracks_of. apply lookup_lt_Some in Hk. lia.
Qed.

Lemma X15_genre_members_witness :
  ∃ s,
    (GenreAccessor_lookup sample_map_path_to_idx "Rock" rock_mpd).1 = Ok s ∧
    (∀ i p, sample_paths !! i = Some p →
            Z.of_nat i ∈ s ↔
            p ∈ Path_of_string <$> ["a/2.mp3"; "gone.mp3"; "a/1.mp3"]) ∧
    s ⊆ all_tracks_of sample_paths.
Proof.
  refine (X15_genre_members sample_paths rock_mpd "Rock" _ _ eq_refl).
  compute_done.
Defined.
